(** * Condensed nearest neighbour under-sampling

    A shallow embedding of
    [imbalanced_ensemble/sampler/under_sampling/_prototype_selection/
    _condensed_nearest_neighbour.py] and the properties of its
    [_fit_resample] method.

    Row positions and queue positions are [nat], class labels are [Z].
    The nearest-neighbour classifier and the random number generator are
    collaborators of the sampler: they appear as interfaces (type classes)
    and every statement is proved for all their implementations. *)

From stdpp Require Import base list sorting gmap strings.
From Stdlib Require Import ZArith.

Local Open Scope Z_scope.
Local Open Scope nat_scope.

#[local] Set Warnings "-clear-no-such-hyp".

(** ** Exceptions *)

Inductive exn :=
  | ValueError (msg : string)
  | IndexError
  | NotFittedError
  | AttributeError.

Inductive result (A : Type) :=
  | Ok (a : A)
  | Raise (e : exn).
Arguments Ok {A} a.
Arguments Raise {A} e.

Definition is_ok {A} (r : result A) : bool :=
  match r with Ok _ => true | Raise _ => false end.

(** ** The numpy operations the sampler uses *)

Module np.

(** [arr == c] for an array and a scalar. *)
Definition eq_scalar (arr : list Z) (c : Z) : list bool :=
  (λ v, bool_decide (v = c)) <$> arr.

(** [a == b] for two arrays of one shape. *)
Definition eq_array (a b : list Z) : list bool :=
  zip_with (λ u v, bool_decide (u = v)) a b.

Fixpoint flatnonzero_from (i : nat) (mask : list bool) : list nat :=
  match mask with
  | [] => []
  | b :: mask' =>
      if b then i :: flatnonzero_from (S i) mask'
      else flatnonzero_from (S i) mask'
  end.

(** [np.flatnonzero(mask)]: the positions that hold [True], ascending. *)
Definition flatnonzero (mask : list bool) : list nat :=
  flatnonzero_from 0 mask.

(** [np.unique(arr)]: the distinct entries, sorted ascending. *)
Definition unique {A} (R : relation A) `{!RelDecision R} `{!EqDecision A}
    (arr : list A) : list A :=
  merge_sort R (remove_dups arr).

(** [arr[indices]] with an index array, and [_safe_indexing(arr, indices)]
    of scikit-learn on arrays and lists: the entries at [indices], in the
    order of [indices]; an index past the end raises [IndexError]. *)
Fixpoint take {A} (arr : list A) (indices : list nat) : result (list A) :=
  match indices with
  | [] => Ok []
  | i :: indices' =>
      match arr !! i with
      | None => Raise IndexError
      | Some a =>
          match take arr indices' with
          | Ok r => Ok (a :: r)
          | Raise e => Raise e
          end
      end
  end.

(** [x in arr] for a scalar and an array: some entry equals [x]. *)
Definition contains (x : nat) (arr : list nat) : bool :=
  bool_decide (x ∈ arr).

(** [arr[i]] with one index. *)
Definition item {A} (arr : list A) (i : nat) : result A :=
  match arr !! i with
  | Some a => Ok a
  | None => Raise IndexError
  end.

(** [if y_sam != pred_y:] for a scalar and the array [predict] answered
    for one row: the truth value of a one-entry array is that of its
    entry, and an array of another size has no truth value. *)
Definition differs (y_sam : Z) (pred_y : list Z) : result bool :=
  match pred_y with
  | [p] => Ok (negb (bool_decide (y_sam = p)))
  | _ => Raise (ValueError "The truth value of an array is ambiguous")
  end.

End np.

Definition _safe_indexing {A} (X : list A) (indices : list nat)
  : result (list A) := np.take X indices.

(** ** [collections.Counter] and [min(counter, key=counter.get)] *)

(** A [Counter] is a dict: its keys stay in the order of their first
    insertion, which decides ties in [min]. *)
Fixpoint counter_incr (c : Z) (stats : list (Z * nat)) : list (Z * nat) :=
  match stats with
  | [] => [(c, 1)]
  | (k, n) :: stats' =>
      if bool_decide (k = c) then (k, S n) :: stats'
      else (k, n) :: counter_incr c stats'
  end.

Definition Counter (y : list Z) : list (Z * nat) :=
  foldl (λ stats c, counter_incr c stats) [] y.

(** [stats[c]]: a missing key counts 0. *)
Fixpoint counter_get (stats : list (Z * nat)) (c : Z) : nat :=
  match stats with
  | [] => 0
  | (k, n) :: stats' => if bool_decide (k = c) then n else counter_get stats' c
  end.

(** [min(stats, key=stats.get)]: the keys are visited in dict order and a
    later key replaces the best one only when its count is strictly
    smaller; on an empty dict [min] raises [ValueError]. *)
Definition min_key (stats : list (Z * nat)) : result Z :=
  match stats with
  | [] => Raise (ValueError "min() arg is an empty sequence")
  | kn :: stats' =>
      Ok (foldl (λ best kn', if bool_decide (kn'.2 < best.2) then kn' else best)
                kn stats').1
  end.

(** ** The collaborators *)

(** The nearest-neighbour classifier of scikit-learn.  [Params] is an
    unfitted estimator (its constructor arguments), [Model] what [fit]
    leaves in the estimator.  [fit] starts from scratch at every call;
    [fit] and [predict] may raise, and [predict] answers one label for
    each row it is given. *)
Class Classifier := {
  Row : Type;
  Params : Type;
  Model : Type;
  KNeighborsClassifier : Z → option Z → Params;
  fit : Params → list Row → list Z → result Model;
  predict : Model → list Row → result (list Z);
  predict_length m rows labels :
    predict m rows = Ok labels → length labels = length rows
}.

(** [numpy.random.RandomState]: [RandomState seed] is a generator seeded
    with [seed]; [randint s high size] is [randint(low=0, high, size)]
    on a generator in state [s], the draws and the state it is left in.
    Each draw lies in [0, high). *)
Class RandomSource := {
  RS : Type;
  RandomState : Z → RS;
  randint : RS → nat → nat → list nat * RS;
  randint_range s high size :
    0 < high → Forall (λ d, d < high) (randint s high size).1;
  randint_length s high size :
    length (randint s high size).1 = size
}.

Section Sampler.
Context `{Classifier} `{RandomSource} {Weight : Type}.

(** ** The sampler object and the store *)

(** An estimator object: its parameters and, once fitted, its model. *)
Record Estimator := {
  est_params : Params;
  est_model : option Model
}.

(** [sklearn.base.clone]: a new unfitted estimator with the same
    parameters. *)
Definition clone (e : Estimator) : Estimator :=
  {| est_params := est_params e; est_model := None |}.

(** The values [n_neighbors] can hold: [None], an [int], an instance of
    [KNeighborsClassifier], or any other object (kept by the name of its
    type, which the error message shows). *)
Inductive n_neighbors_t :=
  | NNone
  | NInt (k : Z)
  | NClassifier (e : Estimator)
  | NOther (type_name : string).

(** The values [random_state] can hold: [None], an [int] seed, or a
    [RandomState] instance (whose state lives in the store). *)
Inductive random_state_t :=
  | RSNone
  | RSInt (seed : Z)
  | RSInstance.

(** The constructor arguments of [CondensedNearestNeighbour], and
    [sampling_strategy_] as the base class computed it in [fit_resample]:
    a dict from the targeted labels to sample counts, read here through
    its keys only.  [n_seeds_S] is a count, hence not negative. *)
Record CondensedNearestNeighbour := {
  sampling_strategy_ : gmap Z nat;
  random_state : random_state_t;
  n_neighbors : n_neighbors_t;
  n_seeds_S : nat;
  n_jobs : option Z
}.

(** What a call can change: the attributes [estimator_] and
    [sample_indices_] of the sampler ([None] while unset), the state of
    numpy's global generator and the state of the generator instance
    passed as [random_state]. *)
Record store := {
  estimator_ : option Estimator;
  sample_indices_ : option (list nat);
  np_random : RS;
  rs_instance : RS
}.

(** What the local variable [random_state] refers to after
    [check_random_state]: the global generator, the instance of the
    caller, or a generator of its own. *)
Inductive rng_ref :=
  | RefGlobal
  | RefInstance
  | RefFresh (s : RS).

(** ** Stateful computations that may raise *)

Definition M (A : Type) : Type := store → result A * store.

#[export] Instance M_ret : MRet M := λ A a σ, (Ok a, σ).

#[export] Instance M_bind : MBind M := λ A B f m σ,
  match m σ with
  | (Ok a, σ') => f a σ'
  | (Raise e, σ') => (Raise e, σ')
  end.

Definition raise {A} (e : exn) : M A := λ σ, (Raise e, σ).

Definition lift {A} (r : result A) : M A := λ σ, (r, σ).

Fixpoint foldM {A B} (f : B → A → M B) (b : B) (l : list A) : M B :=
  match l with
  | [] => mret b
  | a :: l' => b' ← f b a; foldM f b' l'
  end.

Definition set_estimator_ (e : Estimator) : M unit := λ σ,
  (Ok (), {| estimator_ := Some e; sample_indices_ := sample_indices_ σ;
             np_random := np_random σ; rs_instance := rs_instance σ |}).

Definition set_sample_indices_ (idx : list nat) : M unit := λ σ,
  (Ok (), {| estimator_ := estimator_ σ; sample_indices_ := Some idx;
             np_random := np_random σ; rs_instance := rs_instance σ |}).

(** [self.estimator_.fit(C_x, C_y)] *)
Definition estimator_fit (C_x : list Row) (C_y : list Z) : M unit := λ σ,
  match estimator_ σ with
  | None => (Raise AttributeError, σ)
  | Some e =>
      match fit (est_params e) C_x C_y with
      | Raise err => (Raise err, σ)
      | Ok m => set_estimator_ {| est_params := est_params e;
                                  est_model := Some m |} σ
      end
  end.

(** [self.estimator_.predict(rows)] *)
Definition estimator_predict (rows : list Row) : M (list Z) := λ σ,
  match estimator_ σ with
  | None => (Raise AttributeError, σ)
  | Some e =>
      match est_model e with
      | None => (Raise NotFittedError, σ)
      | Some m => (predict m rows, σ)
      end
  end.

(** [sklearn.utils.check_random_state] *)
Definition check_random_state (seed : random_state_t) : M rng_ref :=
  match seed with
  | RSNone => mret RefGlobal
  | RSInt s =>
      if bool_decide (0 ≤ s < 2 ^ 32)%Z then mret (RefFresh (RandomState s))
      else raise (ValueError "Seed must be between 0 and 2**32 - 1")
  | RSInstance => mret RefInstance
  end.

(** [random_state.randint(low=0, high=high, size=size)]: the draws; the
    generator that [random_state] refers to moves on. *)
Definition randint_at (random_state : rng_ref) (high size : nat)
  : M (list nat * rng_ref) := λ σ,
  if bool_decide (high = 0) then (Raise (ValueError "low >= high"), σ)
  else
    match random_state with
    | RefGlobal =>
        let '(draws, s') := randint (np_random σ) high size in
        (Ok (draws, RefGlobal),
         {| estimator_ := estimator_ σ; sample_indices_ := sample_indices_ σ;
            np_random := s'; rs_instance := rs_instance σ |})
    | RefInstance =>
        let '(draws, s') := randint (rs_instance σ) high size in
        (Ok (draws, RefInstance),
         {| estimator_ := estimator_ σ; sample_indices_ := sample_indices_ σ;
            np_random := np_random σ; rs_instance := s' |})
    | RefFresh s =>
        let '(draws, s') := randint s high size in
        (Ok (draws, RefFresh s'), σ)
    end.

(** ** [_validate_estimator] *)

Definition _validate_estimator (self : CondensedNearestNeighbour) : M unit :=
  match n_neighbors self with
  | NNone =>
      set_estimator_ {| est_params := KNeighborsClassifier 1 (n_jobs self);
                        est_model := None |}
  | NInt k =>
      set_estimator_ {| est_params := KNeighborsClassifier k (n_jobs self);
                        est_model := None |}
  | NClassifier e => set_estimator_ (clone e)
  | NOther type_name =>
      raise (ValueError
        ("`n_neighbors` has to be a int or an object inhereited from KNeighborsClassifier. Got "
         +:+ type_name +:+ " instead."))
  end.

(** ** [_fit_resample] *)

(** The local variables that the loop over the candidates updates. *)
Record cnn_locals := {
  idx_maj_sample : list nat;
  C_indices : list nat;
  good_classif_label : list nat
}.

(** The test [if idx_sam in good_classif_label: continue]. *)
Definition skip_test (idx_sam : nat) (st : cnn_locals) : bool :=
  np.contains idx_sam (good_classif_label st).

(** One turn of [for idx_sam, (x_sam, y_sam) in enumerate(zip(S_x, S_y))]. *)
Definition loop_body (X : list Row) (y : list Z) (idx_maj : list nat)
    (S_x : list Row) (S_y : list Z)
    (st : cnn_locals) (cand : nat * (Row * Z)) : M cnn_locals :=
  let '(idx_sam, (x_sam, y_sam)) := cand in
  if skip_test idx_sam st then mret st
  else
    pred_y ← estimator_predict [x_sam];
    mis ← lift (np.differs y_sam pred_y);
    if (mis : bool) then
      g ← lift (np.item idx_maj idx_sam);
      let idx_maj_sample := idx_maj_sample st ++ [g] in
      let C_indices := C_indices st ++ [g] in
      C_x ← lift (_safe_indexing X C_indices);
      C_y ← lift (_safe_indexing y C_indices);
      estimator_fit C_x C_y;;
      pred_S_y ← estimator_predict S_x;
      let good_classif_label :=
        np.unique le
          (idx_maj_sample ++ np.flatnonzero (np.eq_array pred_S_y S_y)) in
      mret {| idx_maj_sample := idx_maj_sample;
              C_indices := C_indices;
              good_classif_label := good_classif_label |}
    else mret st.

(** [enumerate(l)] *)
Definition enumerate {A} (l : list A) : list (nat * A) :=
  zip (seq 0 (length l)) l.

(** What the lines before the loop over the candidates leave behind for
    a targeted class. *)
Record cnn_setup := {
  setup_random_state : rng_ref;
  setup_idx_maj : list nat;
  setup_S_x : list Row;
  setup_S_y : list Z;
  setup_locals : cnn_locals
}.

(** The targeted branch up to the loop: the seeds are drawn, the set C is
    the minority class followed by the seeds, and the estimator is fitted
    on C. *)
Definition class_setup (self : CondensedNearestNeighbour)
    (X : list Row) (y : list Z) (target_stats : list (Z * nat))
    (class_minority : Z) (random_state : rng_ref) (target_class : Z)
  : M cnn_setup :=
  let idx_maj := np.flatnonzero (np.eq_scalar y target_class) in
  '(draws, random_state) ←
     randint_at random_state (counter_get target_stats target_class)
                (n_seeds_S self);
  idx_maj_sample ← lift (np.take idx_maj draws);
  let C_indices :=
    np.flatnonzero (np.eq_scalar y class_minority) ++ idx_maj_sample in
  C_x ← lift (_safe_indexing X C_indices);
  C_y ← lift (_safe_indexing y C_indices);
  let S_indices := np.flatnonzero (np.eq_scalar y target_class) in
  S_x ← lift (_safe_indexing X S_indices);
  S_y ← lift (_safe_indexing y S_indices);
  estimator_fit C_x C_y;;
  let good_classif_label := idx_maj_sample in
  mret {| setup_random_state := random_state;
          setup_idx_maj := idx_maj;
          setup_S_x := S_x;
          setup_S_y := S_y;
          setup_locals := {| idx_maj_sample := idx_maj_sample;
                             C_indices := C_indices;
                             good_classif_label := good_classif_label |} |}.

(** The loop over the candidates, from the locals [st]. *)
Definition class_loop (X : list Row) (y : list Z) (su : cnn_setup)
    (st : cnn_locals) (cands : list (nat * (Row * Z))) : M cnn_locals :=
  foldM (loop_body X y (setup_idx_maj su) (setup_S_x su) (setup_S_y su))
        st cands.

(** One turn of [for target_class in np.unique(y)], on the pair of
    [idx_under] and [random_state]. *)
Definition class_step (self : CondensedNearestNeighbour)
    (X : list Row) (y : list Z) (target_stats : list (Z * nat))
    (class_minority : Z)
    (acc : list nat * rng_ref) (target_class : Z) : M (list nat * rng_ref) :=
  let '(idx_under, random_state) := acc in
  if bool_decide (target_class ∈ dom (sampling_strategy_ self)) then
    su ← class_setup self X y target_stats class_minority random_state
                     target_class;
    st ← class_loop X y su (setup_locals su)
                    (enumerate (zip (setup_S_x su) (setup_S_y su)));
    mret (idx_under ++ idx_maj_sample st, setup_random_state su)
  else
    mret (idx_under ++ np.flatnonzero (np.eq_scalar y target_class),
          random_state).

(** What [_fit_resample] returns: a pair, or a triple when
    [sample_weight] is given. *)
Inductive resampled :=
  | Resampled2 (X_res : list Row) (y_res : list Z)
  | Resampled3 (X_res : list Row) (y_res : list Z) (sw_res : list Weight).

Definition _fit_resample (self : CondensedNearestNeighbour)
    (X : list Row) (y : list Z) (sample_weight : option (list Weight))
  : M resampled :=
  _validate_estimator self;;
  random_state ← check_random_state (random_state self);
  let target_stats := Counter y in
  class_minority ← lift (min_key target_stats);
  let idx_under := [] in
  '(idx_under, _) ←
     foldM (class_step self X y target_stats class_minority)
           (idx_under, random_state) (np.unique Z.le y);
  set_sample_indices_ idx_under;;
  match sample_weight with
  | Some sample_weight =>
      sample_weight_under ← lift (_safe_indexing sample_weight idx_under);
      X_res ← lift (_safe_indexing X idx_under);
      y_res ← lift (_safe_indexing y idx_under);
      mret (Resampled3 X_res y_res sample_weight_under)
  | None =>
      X_res ← lift (_safe_indexing X idx_under);
      y_res ← lift (_safe_indexing y idx_under);
      mret (Resampled2 X_res y_res)
  end.

End Sampler.

(** ** Two implementations of the collaborators *)

(** The nearest-neighbour rule with one neighbour on integer features:
    the model is the training set, a row gets the label of the closest
    training row, the earliest one on ties.  Other neighbour counts are
    not implemented and raise at [fit], as does an empty training set. *)
Module nn1.

Definition nearest (x : Z) (best : Z * Z) (train : list (Z * Z)) : Z * Z :=
  foldl (λ best t, if bool_decide (Z.abs (t.1 - x) < Z.abs (best.1 - x))%Z
                   then t else best) best train.

Definition train (k : Z * option Z) (C_x : list Z) (C_y : list Z)
  : result (list (Z * Z)) :=
  if bool_decide (k.1 = 1%Z) then
    match C_x with
    | [] => Raise (ValueError "Found array with 0 sample(s)")
    | _ => Ok (zip C_x C_y)
    end
  else Raise (ValueError "only n_neighbors=1 is implemented").

Definition classify (m : list (Z * Z)) (rows : list Z) : result (list Z) :=
  match m with
  | [] => Raise NotFittedError
  | t :: m' => Ok ((λ x, (nearest x t m').2) <$> rows)
  end.

Lemma classify_length m rows labels :
  classify m rows = Ok labels → length labels = length rows.
Proof.
  destruct m as [|t m']; simpl; [done|].
  intros [= <-]. by rewrite length_fmap.
Qed.

#[export] Instance classifier : Classifier := {|
  Row := Z;
  Params := Z * option Z;
  Model := list (Z * Z);
  KNeighborsClassifier := λ k j, (k, j);
  fit := train;
  predict := classify;
  predict_length := classify_length
|}.

End nn1.

(** A linear congruential generator: the state is the last number, a
    draw below [high] is the next number modulo [high]. *)
Module lcg.

Definition next (s : Z) : Z := ((1103515245 * s + 12345) mod 2147483648)%Z.

Fixpoint draw (s : Z) (high size : nat) : list nat * Z :=
  match size with
  | 0 => ([], s)
  | S size' =>
      let s' := next s in
      let '(draws, s'') := draw s' high size' in
      (Z.to_nat (s' mod Z.of_nat high) :: draws, s'')
  end.

Lemma draw_range s high size :
  0 < high → Forall (λ d, d < high) (draw s high size).1.
Proof.
  intros Hhigh. revert s.
  induction size as [|size IH]; intros s; simpl; [constructor|].
  specialize (IH (next s)).
  destruct (draw (next s) high size) as [draws s'']; simpl in *.
  constructor; [|done].
  pose proof (Z.mod_pos_bound (next s) (Z.of_nat high)). lia.
Qed.

Lemma draw_length s high size : length (draw s high size).1 = size.
Proof.
  revert s. induction size as [|size IH]; intros s; simpl; [done|].
  specialize (IH (next s)).
  destruct (draw (next s) high size) as [draws s'']; simpl in *.
  by rewrite IH.
Qed.

#[export] Instance source : RandomSource := {|
  RS := Z;
  RandomState := λ seed, seed;
  randint := draw;
  randint_range := draw_range;
  randint_length := draw_length
|}.

End lcg.

Module demo.
Import nn1 lcg.

Definition sampler (targets : list Z) (seed : Z) (n_seeds : nat)
  : CondensedNearestNeighbour :=
  {| sampling_strategy_ := list_to_map ((λ c, (c, 1)) <$> targets);
     random_state := RSInt seed;
     n_neighbors := NNone;
     n_seeds_S := n_seeds;
     n_jobs := None |}.

Definition store0 : store :=
  {| estimator_ := None; sample_indices_ := None;
     np_random := 0%Z; rs_instance := 0%Z |}.

End demo.


(** * Properties *)

(** ** The numpy operations *)

Section Numpy.

Lemma flatnonzero_from_spec (mask : list bool) (i j : nat) :
  j ∈ np.flatnonzero_from i mask ↔ i ≤ j ∧ mask !! (j - i) = Some true.
Proof.
  revert i. induction mask as [|b mask IH]; intros i; simpl.
  - rewrite elem_of_nil. split; [done|by intros [_ ?]].
  - destruct b.
    + rewrite elem_of_cons, IH. split.
      * intros [->|[Hle Hj]].
        -- split; [lia|]. by replace (i - i) with 0 by lia.
        -- split; [lia|]. by replace (j - i) with (S (j - S i)) by lia.
      * intros [Hle Hj]. destruct (decide (j = i)) as [->|Hne]; [by left|].
        right. split; [lia|].
        by replace (j - i) with (S (j - S i)) in Hj by lia.
    + rewrite IH. split.
      * intros [Hle Hj]. split; [lia|].
        by replace (j - i) with (S (j - S i)) by lia.
      * intros [Hle Hj]. destruct (decide (j = i)) as [->|Hne].
        { by replace (i - i) with 0 in Hj by lia. }
        split; [lia|].
        by replace (j - i) with (S (j - S i)) in Hj by lia.
Qed.

Lemma flatnonzero_spec (mask : list bool) (j : nat) :
  j ∈ np.flatnonzero mask ↔ mask !! j = Some true.
Proof.
  unfold np.flatnonzero. rewrite flatnonzero_from_spec.
  replace (j - 0) with j by lia. intuition lia.
Qed.

Lemma flatnonzero_from_sorted (mask : list bool) (i : nat) :
  StronglySorted lt (np.flatnonzero_from i mask).
Proof.
  revert i. induction mask as [|b mask IH]; intros i; simpl; [constructor|].
  destruct b; [|done]. constructor; [done|].
  apply Forall_forall. intros j Hj%flatnonzero_from_spec. lia.
Qed.

Lemma flatnonzero_sorted (mask : list bool) :
  StronglySorted lt (np.flatnonzero mask).
Proof. apply flatnonzero_from_sorted. Qed.

Lemma eq_scalar_lookup (y : list Z) (c : Z) (i : nat) :
  np.eq_scalar y c !! i = Some true ↔ y !! i = Some c.
Proof.
  unfold np.eq_scalar. rewrite list_lookup_fmap.
  destruct (y !! i) as [v|]; simpl; [|done].
  case_bool_decide; naive_solver.
Qed.

(** The rows of class [c]: [np.flatnonzero(y == c)]. *)
Lemma class_indices_spec (y : list Z) (c : Z) (i : nat) :
  i ∈ np.flatnonzero (np.eq_scalar y c) ↔ y !! i = Some c.
Proof. by rewrite flatnonzero_spec, eq_scalar_lookup. Qed.

Lemma eq_array_lookup (a b : list Z) (i : nat) :
  np.eq_array a b !! i = Some true ↔
  ∃ l, a !! i = Some l ∧ b !! i = Some l.
Proof.
  unfold np.eq_array. rewrite lookup_zip_with_Some. split.
  - intros (u & v & Heq & Hu & Hv).
    symmetry in Heq. apply bool_decide_eq_true in Heq. naive_solver.
  - intros (l & Hu & Hv). exists l, l. by rewrite bool_decide_eq_true_2.
Qed.

Lemma take_spec {A} (arr : list A) (indices : list nat) (r : list A) :
  np.take arr indices = Ok r ↔ Forall2 (λ i a, arr !! i = Some a) indices r.
Proof.
  revert r. induction indices as [|i indices IH]; intros r; simpl.
  - split; [intros [= <-]; constructor|by intros ->%Forall2_nil_inv_l].
  - destruct (arr !! i) as [a|] eqn:Hi.
    + destruct (np.take arr indices) as [r'|e].
      * split.
        -- intros [= <-]. constructor; [done|]. by apply IH.
        -- intros (a' & r'' & Ha & Hr & ->)%Forall2_cons_inv_l.
           apply IH in Hr. congruence.
      * split; [done|].
        intros (a' & r'' & Ha & Hr & ->)%Forall2_cons_inv_l.
        by apply IH in Hr.
    + split; [done|].
      intros (a' & r'' & Ha & Hr & ->)%Forall2_cons_inv_l. congruence.
Qed.

Lemma take_is_ok {A} (arr : list A) (indices : list nat) :
  Forall (λ i, i < length arr) indices → ∃ r, np.take arr indices = Ok r.
Proof.
  induction 1 as [|i indices Hi _ [r IH]]; simpl; [by eexists|].
  destruct (lookup_lt_is_Some_2 arr i Hi) as [a ->]. rewrite IH. by eexists.
Qed.

Lemma take_in_range {A} (arr : list A) (indices : list nat) (r : list A) :
  np.take arr indices = Ok r → Forall (λ i, i < length arr) indices.
Proof.
  intros Hr%take_spec. induction Hr; constructor; [|done].
  by eapply lookup_lt_Some.
Qed.

Lemma take_length {A} (arr : list A) (indices : list nat) (r : list A) :
  np.take arr indices = Ok r → length r = length indices.
Proof. intros Hr%take_spec. symmetry. by eapply Forall2_length. Qed.

Lemma take_elem_of {A} (arr : list A) (indices : list nat) (r : list A) a :
  np.take arr indices = Ok r → a ∈ r → a ∈ arr.
Proof.
  intros Hr%take_spec Ha.
  induction Hr as [|i a' ? ? Hi]; [by apply elem_of_nil in Ha|].
  apply elem_of_cons in Ha as [->|Ha]; [|by auto].
  by eapply list_elem_of_lookup_2.
Qed.

Lemma unique_elem_of {A} (R : relation A) `{!RelDecision R} `{!EqDecision A}
    (arr : list A) (x : A) :
  x ∈ np.unique R arr ↔ x ∈ arr.
Proof.
  unfold np.unique. rewrite merge_sort_Permutation. apply elem_of_remove_dups.
Qed.

Lemma unique_NoDup {A} (R : relation A) `{!RelDecision R} `{!EqDecision A}
    (arr : list A) :
  NoDup (np.unique R arr).
Proof.
  unfold np.unique. rewrite merge_sort_Permutation. apply NoDup_remove_dups.
Qed.

Lemma unique_sorted {A} (R : relation A) `{!RelDecision R} `{!EqDecision A}
    `{!Transitive R} `{!Total R} (arr : list A) :
  StronglySorted R (np.unique R arr).
Proof. apply StronglySorted_merge_sort; apply _. Qed.

Lemma contains_spec (x : nat) (arr : list nat) :
  np.contains x arr = true ↔ x ∈ arr.
Proof. unfold np.contains. by rewrite bool_decide_eq_true. Qed.

End Numpy.

(** ** The class statistics *)

(** How often the label [c] occurs in [y]. *)
Definition count_of (c : Z) (y : list Z) : nat :=
  length (filter (λ v, v = c) y).

Section Statistics.

Lemma Counter_snoc (y : list Z) (c : Z) :
  Counter (y ++ [c]) = counter_incr c (Counter y).
Proof. unfold Counter. by rewrite foldl_snoc. Qed.

Lemma counter_get_incr (stats : list (Z * nat)) (c k : Z) :
  counter_get (counter_incr c stats) k =
  if bool_decide (k = c) then S (counter_get stats c) else counter_get stats k.
Proof.
  induction stats as [|[k' n] stats IH]; simpl.
  - repeat case_bool_decide; congruence.
  - repeat (case_bool_decide; simpl; rewrite ?IH); subst; congruence.
Qed.

Lemma counter_get_Counter (y : list Z) (c : Z) :
  counter_get (Counter y) c = count_of c y.
Proof.
  unfold count_of.
  induction y as [|v y IH] using rev_ind; [done|].
  rewrite Counter_snoc, counter_get_incr, filter_app, length_app.
  case_bool_decide as Hc.
  - subst v. rewrite filter_cons_True by done. simpl. rewrite IH. lia.
  - rewrite filter_cons_False by congruence. simpl. rewrite IH. lia.
Qed.

Lemma counter_incr_keys (stats : list (Z * nat)) (c : Z) :
  (counter_incr c stats).*1 =
  if bool_decide (c ∈ stats.*1) then stats.*1 else stats.*1 ++ [c].
Proof.
  induction stats as [|[k n] stats IH]; csimpl.
  - done.
  - destruct (decide (k = c)) as [->|Hk].
    + rewrite !bool_decide_eq_true_2; [done|apply list_elem_of_here|done].
    + rewrite (bool_decide_eq_false_2 (k = c)) by done. csimpl. rewrite IH.
      destruct (decide (c ∈ stats.*1)) as [Hc|Hc].
      * rewrite !bool_decide_eq_true_2; [done|by apply list_elem_of_further|done].
      * rewrite !bool_decide_eq_false_2; [done| |done].
        rewrite elem_of_cons. naive_solver.
Qed.

(** The keys of [Counter(y)] are the labels of [y], each once, in the
    order in which [y] shows them first. *)
Lemma Counter_keys (y : list Z) :
  NoDup (Counter y).*1 ∧
  (∀ k, k ∈ (Counter y).*1 ↔ k ∈ y) ∧
  (∀ i j k1 k2,
     (Counter y).*1 !! i = Some k1 → (Counter y).*1 !! j = Some k2 → i < j →
     ∃ p, y !! p = Some k1 ∧ k2 ∉ take p y).
Proof.
  induction y as [|c y (Hnd & Hin & Hord)] using rev_ind.
  - split_and!; [constructor|done|done].
  - rewrite Counter_snoc, counter_incr_keys.
    assert (Hstep : ∀ k1 k2 p, y !! p = Some k1 → k2 ∉ take p y →
              (y ++ [c]) !! p = Some k1 ∧ k2 ∉ take p (y ++ [c])).
    { intros k1 k2 p Hp Hk2. pose proof (lookup_lt_Some _ _ _ Hp).
      split; [by apply lookup_app_l_Some|]. rewrite take_app_le by lia. done. }
    case_bool_decide as Hc.
    + split_and!; [done| |].
      * intros k. rewrite elem_of_app, list_elem_of_singleton, Hin.
        apply Hin in Hc. naive_solver.
      * intros i j k1 k2 Hi Hj Hlt.
        destruct (Hord i j k1 k2 Hi Hj Hlt) as (p & Hp & Hk2). naive_solver.
    + split_and!.
      * apply NoDup_app. split_and!; [done| |apply NoDup_singleton].
        intros k Hk ->%list_elem_of_singleton. done.
      * intros k. rewrite !elem_of_app, Hin. done.
      * intros i j k1 k2 Hi Hj Hlt.
        apply lookup_snoc_Some in Hj as [[Hjl Hj]|[Hjl ->]].
        -- rewrite lookup_app_l in Hi by lia.
           destruct (Hord i j k1 k2 Hi Hj Hlt) as (p & Hp & Hk2). naive_solver.
        -- rewrite lookup_app_l in Hi by lia.
           assert (k1 ∈ y) as (p & Hp)%list_elem_of_lookup.
           { apply Hin. by eapply list_elem_of_lookup_2. }
           exists p. apply Hstep; [done|].
           intros Hk2%subseteq_take. by apply Hc, Hin.
Qed.

Lemma Counter_elem_of (y : list Z) (k : Z) (n : nat) :
  (k, n) ∈ Counter y → k ∈ y ∧ n = count_of k y.
Proof.
  intros Hkn. destruct (Counter_keys y) as (Hnd & Hin & _). split.
  - apply Hin. apply list_elem_of_fmap. by exists (k, n).
  - rewrite <-counter_get_Counter. clear Hin.
    induction (Counter y) as [|[k' n'] stats IH]; [by apply elem_of_nil in Hkn|].
    simpl in *. apply NoDup_cons in Hnd as [Hk' Hnd].
    apply elem_of_cons in Hkn as [[= -> ->]|Hkn].
    + by rewrite bool_decide_eq_true_2.
    + rewrite bool_decide_eq_false_2; [by apply IH|].
      intros ->. apply Hk', list_elem_of_fmap. by exists (k, n).
Qed.

Lemma Counter_nil_inv (y : list Z) : Counter y = [] → y = [].
Proof.
  destruct (Counter_keys y) as (_ & Hin & _). intros Hnil.
  rewrite Hnil in Hin. destruct y as [|c y]; [done|].
  exfalso. eapply not_elem_of_nil, Hin. left.
Qed.

(** The fold of [min]: the answer is the earliest entry with the least
    count. *)
Lemma min_fold_spec (best : Z * nat) (stats : list (Z * nat)) :
  let r := foldl (λ best kn', if bool_decide (kn'.2 < best.2) then kn'
                              else best) best stats in
  ∃ i, (best :: stats) !! i = Some r ∧
       ∀ j kn, (best :: stats) !! j = Some kn →
               r.2 ≤ kn.2 ∧ (j < i → r.2 < kn.2).
Proof.
  induction stats as [|a stats (i & Hi & Hmin)] using rev_ind; simpl.
  - exists 0. split; [done|]. intros [|j] kn; simpl; [|done].
    intros [= ->]. lia.
  - rewrite foldl_snoc.
    set (r := foldl _ best stats) in *.
    pose proof (lookup_lt_Some _ _ _ Hi) as Hlen. simpl in Hlen.
    case_bool_decide as Ha.
    + exists (S (length stats)). split.
      { simpl. by rewrite lookup_app_r, Nat.sub_diag by lia. }
      intros j kn Hj. rewrite app_comm_cons in Hj.
      apply lookup_snoc_Some in Hj as [[Hjl Hj]|[Hjl ->]].
      * destruct (Hmin j kn Hj). lia.
      * simpl in Hjl. lia.
    + exists i. split.
      { rewrite app_comm_cons. by apply lookup_app_l_Some. }
      intros j kn Hj. rewrite app_comm_cons in Hj.
      apply lookup_snoc_Some in Hj as [[Hjl Hj]|[Hjl ->]].
      * by apply Hmin.
      * simpl in Hjl. lia.
Qed.

(** [class_minority]: a label of [y] of least count and, among those, the
    one that [y] shows first. *)
Lemma min_key_Counter_spec (y : list Z) (m : Z) :
  min_key (Counter y) = Ok m →
  m ∈ y ∧
  ∀ c, c ∈ y →
    count_of m y ≤ count_of c y ∧
    (count_of c y = count_of m y → c ≠ m →
     ∃ p, y !! p = Some m ∧ c ∉ take p y).
Proof.
  unfold min_key. destruct (Counter y) as [|best stats] eqn:Hstats; [done|].
  intros [= <-].
  destruct (min_fold_spec best stats) as (i & Hi & Hmin).
  set (r := foldl _ best stats) in *. rewrite <-Hstats in *.
  destruct (Counter_keys y) as (Hnd & Hin & Hord).
  assert (Hr : r ∈ Counter y) by by eapply list_elem_of_lookup_2.
  destruct r as [m n]. apply Counter_elem_of in Hr as [Hm ->]. simpl in *.
  split; [done|]. intros c Hc.
  apply Hin, list_elem_of_fmap in Hc as ([c' n'] & -> & Hc).
  pose proof Hc as [_ ->]%Counter_elem_of. simpl.
  apply list_elem_of_lookup in Hc as [j Hj].
  destruct (Hmin _ _ Hj) as [Hle Hlt]. simpl in *. split; [done|].
  intros Heq Hne. apply (Hord i j).
  - by rewrite list_lookup_fmap, Hi.
  - by rewrite list_lookup_fmap, Hj.
  - destruct (decide (i < j)) as [|Hge]; [done|].
    destruct (decide (i = j)) as [->|Hij]; [congruence|].
    assert (j < i) as Hji%Hlt by lia. lia.
Qed.

Lemma min_key_Counter_is_ok (y : list Z) :
  y ≠ [] → ∃ m, min_key (Counter y) = Ok m.
Proof.
  intros Hy. unfold min_key.
  destruct (Counter y) eqn:Hstats; [by apply Counter_nil_inv in Hstats|].
  by eexists.
Qed.

End Statistics.

(** ** Computations that return *)

Section Monad.
Context `{Classifier} `{RandomSource}.

Lemma bind_Ok {A B} (m : M A) (f : A → M B) σ b σ' :
  (m ≫= f) σ = (Ok b, σ') ↔
  ∃ a σ1, m σ = (Ok a, σ1) ∧ f a σ1 = (Ok b, σ').
Proof.
  unfold mbind, M_bind. destruct (m σ) as [[a|e] σ1].
  - split; [by exists a, σ1|]. by intros (a' & σ1' & [= <- <-] & Hf).
  - split; [done|]. by intros (a' & σ1' & [=] & _).
Qed.

Lemma mret_Ok {A} (a b : A) σ σ' :
  mret (M:=M) a σ = (Ok b, σ') ↔ b = a ∧ σ' = σ.
Proof. unfold mret, M_ret. naive_solver. Qed.

Lemma lift_Ok {A} (r : result A) (a : A) σ σ' :
  lift r σ = (Ok a, σ') ↔ r = Ok a ∧ σ' = σ.
Proof. unfold lift. naive_solver. Qed.

Lemma foldM_app {A B} (f : B → A → M B) (b : B) (l1 l2 : list A) σ :
  foldM f b (l1 ++ l2) σ = (foldM f b l1 ≫= λ b1, foldM f b1 l2) σ.
Proof.
  revert b σ. induction l1 as [|a l1 IH]; intros b σ; simpl; [done|].
  unfold mbind, M_bind in *. destruct (f b a σ) as [[b1|e] σ1]; [|done].
  apply IH.
Qed.

Lemma foldM_app_Ok {A B} (f : B → A → M B) (b b' : B) (l1 l2 : list A) σ σ' :
  foldM f b (l1 ++ l2) σ = (Ok b', σ') ↔
  ∃ b1 σ1, foldM f b l1 σ = (Ok b1, σ1) ∧ foldM f b1 l2 σ1 = (Ok b', σ').
Proof. by rewrite foldM_app, bind_Ok. Qed.

(** Invariants of a loop: what holds before the loop and is kept by
    every turn that returns holds after every prefix of the loop. *)
Lemma foldM_invariant {A B} (I : B → store → Prop) (f : B → A → M B)
    (l : list A) (b b' : B) σ σ' :
  foldM f b l σ = (Ok b', σ') →
  I b σ →
  (∀ b1 a σ1 b2 σ2, a ∈ l → I b1 σ1 → f b1 a σ1 = (Ok b2, σ2) → I b2 σ2) →
  I b' σ'.
Proof.
  revert b σ. induction l as [|a l IH]; intros b σ Hfold Hb Hstep.
  - apply mret_Ok in Hfold as [-> ->]. done.
  - simpl in Hfold. apply bind_Ok in Hfold as (b1 & σ1 & Ha & Hfold).
    eapply IH; [done| |].
    + eapply Hstep; [left|done..].
    + intros. eapply Hstep; [by right|done..].
Qed.

End Monad.

(** ** One turn of the loop over the candidates *)

Section Turn.
Context `{Classifier} `{RandomSource}.

(** The store once the estimator [e] was fitted to the model [m]. *)
Definition fitted (σ : store) (e : Estimator) (m : Model) : store :=
  {| estimator_ := Some {| est_params := est_params e; est_model := Some m |};
     sample_indices_ := sample_indices_ σ;
     np_random := np_random σ;
     rs_instance := rs_instance σ |}.

(** The estimator in the store is fitted on the rows [C]. *)
Definition fitted_on (X : list Row) (y : list Z) (C : list nat) (σ : store)
  : Prop :=
  ∃ e C_x C_y m,
    estimator_ σ = Some e ∧ est_model e = Some m ∧
    _safe_indexing X C = Ok C_x ∧ _safe_indexing y C = Ok C_y ∧
    fit (est_params e) C_x C_y = Ok m.

(** The turns that return: the candidate is skipped; or it is classified
    and the answer is its label; or the answer is another label, the
    candidate joins the selection and C, the estimator is fitted again on
    C, the whole queue is classified and the well classified entries are
    computed anew. *)
Inductive turn (X : list Row) (y : list Z) (idx_maj : list nat)
    (S_x : list Row) (S_y : list Z) (st : cnn_locals) (idx_sam : nat)
    (x_sam : Row) (y_sam : Z) (σ : store) : cnn_locals → store → Prop :=
  | turn_skipped :
      skip_test idx_sam st = true →
      turn X y idx_maj S_x S_y st idx_sam x_sam y_sam σ st σ
  | turn_agreed :
      skip_test idx_sam st = false →
      estimator_predict [x_sam] σ = (Ok [y_sam], σ) →
      turn X y idx_maj S_x S_y st idx_sam x_sam y_sam σ st σ
  | turn_retrained p g C_x C_y e m pred_S_y :
      skip_test idx_sam st = false →
      estimator_predict [x_sam] σ = (Ok [p], σ) →
      p ≠ y_sam →
      idx_maj !! idx_sam = Some g →
      _safe_indexing X (C_indices st ++ [g]) = Ok C_x →
      _safe_indexing y (C_indices st ++ [g]) = Ok C_y →
      estimator_ σ = Some e →
      fit (est_params e) C_x C_y = Ok m →
      predict m S_x = Ok pred_S_y →
      turn X y idx_maj S_x S_y st idx_sam x_sam y_sam σ
        {| idx_maj_sample := idx_maj_sample st ++ [g];
           C_indices := C_indices st ++ [g];
           good_classif_label :=
             np.unique le ((idx_maj_sample st ++ [g]) ++
                           np.flatnonzero (np.eq_array pred_S_y S_y)) |}
        (fitted σ e m).

Lemma estimator_predict_Ok rows labels σ σ' :
  estimator_predict rows σ = (Ok labels, σ') ↔
  σ' = σ ∧ ∃ e m, estimator_ σ = Some e ∧ est_model e = Some m ∧
                  predict m rows = Ok labels.
Proof.
  unfold estimator_predict. destruct (estimator_ σ) as [e|]; [|naive_solver].
  destruct (est_model e) as [m|] eqn:Hm; [|naive_solver].
  split; [intros [= Hp <-]; naive_solver|].
  intros (-> & e' & m' & [= <-] & Hm' & Hp).
  rewrite Hm in Hm'. injection Hm' as <-. by rewrite Hp.
Qed.

Lemma estimator_fit_Ok C_x C_y σ σ' :
  estimator_fit C_x C_y σ = (Ok (), σ') ↔
  ∃ e m, estimator_ σ = Some e ∧ fit (est_params e) C_x C_y = Ok m ∧
         σ' = fitted σ e m.
Proof.
  unfold estimator_fit. destruct (estimator_ σ) as [e|]; [|naive_solver].
  destruct (fit (est_params e) C_x C_y) as [m|err] eqn:Hm.
  2:{ split; [done|]. intros (e' & m' & [= <-] & Hm' & _). congruence. }
  unfold set_estimator_, fitted. split; [intros [= <-]; naive_solver|].
  intros (e' & m' & [= <-] & Hm' & ->).
  rewrite Hm in Hm'. by injection Hm' as <-.
Qed.

Lemma differs_Ok y_sam pred_y b :
  np.differs y_sam pred_y = Ok b ↔
  ∃ p, pred_y = [p] ∧ b = negb (bool_decide (y_sam = p)).
Proof.
  unfold np.differs. destruct pred_y as [|p [|??]]; naive_solver.
Qed.

Lemma item_Ok {A} (arr : list A) i a :
  np.item arr i = Ok a ↔ arr !! i = Some a.
Proof. unfold np.item. destruct (arr !! i); naive_solver. Qed.

Lemma loop_body_turn X y idx_maj S_x S_y st idx_sam x_sam y_sam σ st' σ' :
  loop_body X y idx_maj S_x S_y st (idx_sam, (x_sam, y_sam)) σ = (Ok st', σ')
  ↔ turn X y idx_maj S_x S_y st idx_sam x_sam y_sam σ st' σ'.
Proof.
  unfold loop_body. split.
  - destruct (skip_test idx_sam st) eqn:Hskip.
    { intros [-> ->]%mret_Ok. by constructor. }
    intros Hbody.
    apply bind_Ok in Hbody as (pred_y & σ1 & Hpred & Hbody).
    apply bind_Ok in Hbody as (mis & σ2 & Hmis & Hbody).
    apply lift_Ok in Hmis as [Hmis ->].
    apply estimator_predict_Ok in Hpred as (-> & e & m & He & Hm & Hp).
    apply differs_Ok in Hmis as (p & -> & ->).
    assert (Hpred : estimator_predict [x_sam] σ = (Ok [p], σ)).
    { apply estimator_predict_Ok. naive_solver. }
    case_bool_decide as Hy; simpl in Hbody.
    { apply mret_Ok in Hbody as [-> ->]. subst. by constructor. }
    apply bind_Ok in Hbody as (g & σ1 & Hg & Hbody).
    apply lift_Ok in Hg as [Hg%item_Ok ->].
    apply bind_Ok in Hbody as (C_x & σ1 & HCx & Hbody).
    apply lift_Ok in HCx as [HCx ->].
    apply bind_Ok in Hbody as (C_y & σ1 & HCy & Hbody).
    apply lift_Ok in HCy as [HCy ->].
    apply bind_Ok in Hbody as ([] & σ1 & Hfit & Hbody).
    apply estimator_fit_Ok in Hfit as (e' & m' & He' & Hfit & ->).
    apply bind_Ok in Hbody as (pred_S_y & σ1 & HpS & Hbody).
    apply estimator_predict_Ok in HpS as (-> & e'' & m'' & He'' & Hm'' & HpS).
    apply mret_Ok in Hbody as [-> ->].
    simpl in He''. injection He'' as <-. simpl in Hm''. injection Hm'' as <-.
    by econstructor.
  - intros Hturn. destruct Hturn as [Hskip|Hskip Hpred|
      p g C_x C_y e m pred_S_y Hskip Hpred Hp Hg HCx HCy He Hfit Hpred_S].
    + by rewrite Hskip.
    + rewrite Hskip. apply bind_Ok. eexists _, _. split; [done|].
      apply bind_Ok. eexists _, _. split; [by apply lift_Ok|]. simpl.
      by rewrite bool_decide_eq_true_2.
    + rewrite Hskip. apply bind_Ok. eexists _, _. split; [done|].
      apply bind_Ok. eexists _, _. split; [by apply lift_Ok|]. simpl.
      rewrite bool_decide_eq_false_2 by congruence. simpl.
      apply bind_Ok. eexists _, _. split.
      { apply lift_Ok. split; [by apply item_Ok|done]. }
      apply bind_Ok. eexists _, _. split; [by apply lift_Ok|].
      apply bind_Ok. eexists _, _. split; [by apply lift_Ok|].
      apply bind_Ok. eexists _, _. split.
      { apply estimator_fit_Ok. naive_solver. }
      apply bind_Ok. eexists _, _. split.
      { apply estimator_predict_Ok. split; [done|]. eexists _, _.
        split_and!; [done..|]. done. }
      by apply mret_Ok.
Qed.

End Turn.

(** ** The targeted branch *)

Section Targeted.
Context `{Classifier} `{RandomSource}.

(** The state of the generator that [random_state] refers to. *)
Definition rng_state (random_state : rng_ref) (σ : store) : RS :=
  match random_state with
  | RefGlobal => np_random σ
  | RefInstance => rs_instance σ
  | RefFresh s => s
  end.

Lemma randint_at_Ok random_state high size σ draws random_state' σ' :
  randint_at random_state high size σ = (Ok (draws, random_state'), σ') →
  0 < high ∧
  draws = (randint (rng_state random_state σ) high size).1 ∧
  rng_state random_state' σ' = (randint (rng_state random_state σ) high size).2 ∧
  estimator_ σ' = estimator_ σ ∧ sample_indices_ σ' = sample_indices_ σ.
Proof.
  unfold randint_at. case_bool_decide as Hhigh; [done|].
  destruct random_state as [| |s]; simpl;
    destruct (randint _ high size) as [draws' s'];
    intros [= <- <- <-]; simpl; split_and!; (done || lia).
Qed.

(** What [class_setup] leaves behind when it returns. *)
Inductive setup_of (self : CondensedNearestNeighbour) (X : list Row)
    (y : list Z) (target_stats : list (Z * nat)) (class_minority : Z)
    (random_state : rng_ref) (target_class : Z) (σ : store)
  : cnn_setup → store → Prop :=
  | setup_intro draws random_state' σ0 seeds C_x C_y S_x S_y e m :
      randint_at random_state (counter_get target_stats target_class)
                 (n_seeds_S self) σ
      = (Ok (draws, random_state'), σ0) →
      np.take (np.flatnonzero (np.eq_scalar y target_class)) draws
      = Ok seeds →
      _safe_indexing X
        (np.flatnonzero (np.eq_scalar y class_minority) ++ seeds) = Ok C_x →
      _safe_indexing y
        (np.flatnonzero (np.eq_scalar y class_minority) ++ seeds) = Ok C_y →
      _safe_indexing X (np.flatnonzero (np.eq_scalar y target_class))
      = Ok S_x →
      _safe_indexing y (np.flatnonzero (np.eq_scalar y target_class))
      = Ok S_y →
      estimator_ σ0 = Some e →
      fit (est_params e) C_x C_y = Ok m →
      setup_of self X y target_stats class_minority random_state target_class σ
        {| setup_random_state := random_state';
           setup_idx_maj := np.flatnonzero (np.eq_scalar y target_class);
           setup_S_x := S_x;
           setup_S_y := S_y;
           setup_locals :=
             {| idx_maj_sample := seeds;
                C_indices :=
                  np.flatnonzero (np.eq_scalar y class_minority) ++ seeds;
                good_classif_label := seeds |} |}
        (fitted σ0 e m).

Lemma class_setup_Ok self X y target_stats class_minority random_state
    target_class σ su σ1 :
  class_setup self X y target_stats class_minority random_state target_class σ
  = (Ok su, σ1) ↔
  setup_of self X y target_stats class_minority random_state target_class σ
           su σ1.
Proof.
  unfold class_setup. split.
  - intros Hsetup.
    apply bind_Ok in Hsetup as ([draws r'] & σ0 & Hdraw & Hsetup).
    apply bind_Ok in Hsetup as (seeds & σ' & Hseeds & Hsetup).
    apply lift_Ok in Hseeds as [Hseeds ->].
    apply bind_Ok in Hsetup as (C_x & σ' & HCx & Hsetup).
    apply lift_Ok in HCx as [HCx ->].
    apply bind_Ok in Hsetup as (C_y & σ' & HCy & Hsetup).
    apply lift_Ok in HCy as [HCy ->].
    apply bind_Ok in Hsetup as (S_x & σ' & HSx & Hsetup).
    apply lift_Ok in HSx as [HSx ->].
    apply bind_Ok in Hsetup as (S_y & σ' & HSy & Hsetup).
    apply lift_Ok in HSy as [HSy ->].
    apply bind_Ok in Hsetup as ([] & σ' & Hfit & Hsetup).
    apply estimator_fit_Ok in Hfit as (e & m & He & Hfit & ->).
    apply mret_Ok in Hsetup as [-> ->].
    by econstructor.
  - intros [draws r' σ0 seeds C_x C_y S_x S_y e m
             Hdraw Hseeds HCx HCy HSx HSy He Hfit].
    apply bind_Ok. eexists _, _. split; [done|].
    apply bind_Ok. eexists _, _. split; [by apply lift_Ok|].
    apply bind_Ok. eexists _, _. split; [by apply lift_Ok|].
    apply bind_Ok. eexists _, _. split; [by apply lift_Ok|].
    apply bind_Ok. eexists _, _. split; [by apply lift_Ok|].
    apply bind_Ok. eexists _, _. split; [by apply lift_Ok|].
    apply bind_Ok. eexists _, _. split.
    { apply estimator_fit_Ok. naive_solver. }
    by apply mret_Ok.
Qed.

Lemma fitted_fitted_on X y C σ e m C_x C_y :
  _safe_indexing X C = Ok C_x → _safe_indexing y C = Ok C_y →
  fit (est_params e) C_x C_y = Ok m →
  fitted_on X y C (fitted σ e m).
Proof.
  intros HCx HCy Hfit.
  exists {| est_params := est_params e; est_model := Some m |}, C_x, C_y, m.
  done.
Qed.

(** Through the loop over the candidates the selection is the seeds
    followed by rows of the targeted class, C is the minority class
    followed by the selection, and the estimator is the one fitted on C. *)
Definition loop_invariant (X : list Row) (y : list Z) (class_minority : Z)
    (su : cnn_setup) (st : cnn_locals) (σ : store) : Prop :=
  fitted_on X y (C_indices st) σ ∧
  C_indices st =
    np.flatnonzero (np.eq_scalar y class_minority) ++ idx_maj_sample st ∧
  ∃ added,
    idx_maj_sample st = idx_maj_sample (setup_locals su) ++ added ∧
    Forall (λ g, g ∈ setup_idx_maj su) added.

Lemma class_loop_invariant self X y target_stats class_minority random_state
    target_class σ su σ1 cands st σ2 :
  class_setup self X y target_stats class_minority random_state target_class σ
  = (Ok su, σ1) →
  class_loop X y su (setup_locals su) cands σ1 = (Ok st, σ2) →
  loop_invariant X y class_minority su st σ2.
Proof.
  intros Hsu%class_setup_Ok Hloop.
  destruct Hsu as [draws r' σ0 seeds C_x0 C_y0 S_x S_y e0 m0
                     Hdraw Hseeds HCx0 HCy0 HSx HSy He0 Hfit0].
  unfold class_loop in Hloop. simpl in *.
  eapply (foldM_invariant (loop_invariant X y class_minority _)); [done| |].
  - split_and!; [by eapply fitted_fitted_on|done|].
    exists []. by rewrite app_nil_r.
  - intros st1 [idx_sam [x_sam y_sam]] σa st2 σb _
      (Hfit1 & HC1 & added & Hsel1 & Hadded) Hturn%loop_body_turn.
    destruct Hturn as [| |p g C_x C_y e m pred_S_y ? ? ? Hg HCx HCy He Hfit ?].
    + split_and!; [done..|]. by exists added.
    + split_and!; [done..|]. by exists added.
    + simpl in *. split_and!.
      * by eapply fitted_fitted_on.
      * by rewrite HC1, <-app_assoc.
      * exists (added ++ [g]). rewrite Hsel1, <-app_assoc. split; [done|].
        apply Forall_app. split; [done|]. apply Forall_singleton.
        by eapply list_elem_of_lookup_2.
Qed.

End Targeted.

(** ** The loop over the classes *)

Section Classes.
Context `{Classifier} `{RandomSource} {Weight : Type}.

(** The rows that the turn for [target_class] appends to [idx_under] do
    not depend on [idx_under]. *)
Lemma class_step_Ok self X y target_stats class_minority idx_under
    random_state target_class σ idx_under' random_state' σ' :
  class_step self X y target_stats class_minority (idx_under, random_state)
             target_class σ = (Ok (idx_under', random_state'), σ') ↔
  ∃ seg, idx_under' = idx_under ++ seg ∧
    if bool_decide (target_class ∈ dom (sampling_strategy_ self)) then
      ∃ su σ1 st,
        class_setup self X y target_stats class_minority random_state
                    target_class σ = (Ok su, σ1) ∧
        class_loop X y su (setup_locals su)
                   (enumerate (zip (setup_S_x su) (setup_S_y su))) σ1
        = (Ok st, σ') ∧
        seg = idx_maj_sample st ∧ random_state' = setup_random_state su
    else
      seg = np.flatnonzero (np.eq_scalar y target_class) ∧
      random_state' = random_state ∧ σ' = σ.
Proof.
  unfold class_step. case_bool_decide as Htarget.
  - split.
    + intros Hstep.
      apply bind_Ok in Hstep as (su & σ1 & Hsu & Hstep).
      apply bind_Ok in Hstep as (st & σ2 & Hst & Hstep).
      apply mret_Ok in Hstep as [[= -> ->] ->]. naive_solver.
    + intros (seg & -> & su & σ1 & st & Hsu & Hst & -> & ->).
      apply bind_Ok. eexists _, _. split; [done|].
      apply bind_Ok. eexists _, _. split; [done|]. by apply mret_Ok.
  - rewrite mret_Ok. naive_solver.
Qed.

(** The turns of the loop over the classes, one after the other: the
    segment that each turn appends to [idx_under], from the generator and
    the store that the turn before left. *)
Inductive class_run (self : CondensedNearestNeighbour) (X : list Row)
    (y : list Z) (target_stats : list (Z * nat)) (class_minority : Z)
  : rng_ref → store → list Z → list (list nat) → rng_ref → store → Prop :=
  | class_run_nil random_state σ :
      class_run self X y target_stats class_minority random_state σ [] []
                random_state σ
  | class_run_cons random_state σ target_class classes seg segs
                   random_state1 σ1 random_state2 σ2 :
      class_step self X y target_stats class_minority ([], random_state)
                 target_class σ = (Ok (seg, random_state1), σ1) →
      class_run self X y target_stats class_minority random_state1 σ1
                classes segs random_state2 σ2 →
      class_run self X y target_stats class_minority random_state σ
                (target_class :: classes) (seg :: segs) random_state2 σ2.

Lemma class_step_from_nil self X y target_stats class_minority idx_under
    random_state target_class σ idx_under' random_state' σ' :
  class_step self X y target_stats class_minority (idx_under, random_state)
             target_class σ = (Ok (idx_under', random_state'), σ') ↔
  ∃ seg, idx_under' = idx_under ++ seg ∧
    class_step self X y target_stats class_minority ([], random_state)
               target_class σ = (Ok (seg, random_state'), σ').
Proof.
  rewrite class_step_Ok. split.
  - intros (seg & -> & Hseg). exists seg. split; [done|].
    apply class_step_Ok. by exists seg.
  - intros (seg & -> & (seg' & -> & Hseg)%class_step_Ok). by exists seg'.
Qed.

Lemma class_loop_run self X y target_stats class_minority classes idx_under
    random_state σ idx_under' random_state' σ' :
  foldM (class_step self X y target_stats class_minority)
        (idx_under, random_state) classes σ
  = (Ok (idx_under', random_state'), σ') ↔
  ∃ segs, idx_under' = idx_under ++ concat segs ∧
    class_run self X y target_stats class_minority random_state σ classes
              segs random_state' σ'.
Proof.
  revert idx_under random_state σ.
  induction classes as [|c classes IH]; intros idx_under r σ; simpl.
  - rewrite mret_Ok. split.
    + intros [[= -> ->] ->]. exists []. rewrite app_nil_r. by split; [|constructor].
    + intros (segs & -> & Hrun). inv Hrun. by rewrite app_nil_r.
  - rewrite bind_Ok. split.
    + intros ([idx1 r1] & σ1 & Hstep & Hfold).
      apply class_step_from_nil in Hstep as (seg & -> & Hstep).
      apply IH in Hfold as (segs & -> & Hrun).
      exists (seg :: segs). simpl. rewrite app_assoc. split; [done|].
      by econstructor.
    + intros (segs & -> & Hrun). inv Hrun.
      eexists (_, _), _. split.
      * apply class_step_from_nil. eauto.
      * apply IH. eexists. split; [|done]. simpl. by rewrite app_assoc.
Qed.

(** What [_fit_resample] returns for the selection [idx_under]. *)
Inductive gathered (X : list Row) (y : list Z) (idx_under : list nat)
  : option (list Weight) → resampled → Prop :=
  | gathered_pair X_res y_res :
      _safe_indexing X idx_under = Ok X_res →
      _safe_indexing y idx_under = Ok y_res →
      gathered X y idx_under None (Resampled2 X_res y_res)
  | gathered_triple sample_weight X_res y_res sw_res :
      _safe_indexing sample_weight idx_under = Ok sw_res →
      _safe_indexing X idx_under = Ok X_res →
      _safe_indexing y idx_under = Ok y_res →
      gathered X y idx_under (Some sample_weight)
               (Resampled3 X_res y_res sw_res).

(** The store with [sample_indices_] set. *)
Definition selected (σ : store) (idx_under : list nat) : store :=
  {| estimator_ := estimator_ σ; sample_indices_ := Some idx_under;
     np_random := np_random σ; rs_instance := rs_instance σ |}.

(** A call of [_fit_resample] that returns. *)
Inductive resample_run (self : CondensedNearestNeighbour) (X : list Row)
    (y : list Z) (sample_weight : option (list Weight)) (σ : store)
  : resampled → store → Prop :=
  | resample_run_intro σ0 rng class_minority segs rng' σ1 out :
      _validate_estimator self σ = (Ok (), σ0) →
      check_random_state (random_state self) σ0 = (Ok rng, σ0) →
      min_key (Counter y) = Ok class_minority →
      class_run self X y (Counter y) class_minority rng σ0
                (np.unique Z.le y) segs rng' σ1 →
      gathered X y (concat segs) sample_weight out →
      resample_run self X y sample_weight σ out (selected σ1 (concat segs)).

Lemma check_random_state_Ok seed σ random_state σ' :
  check_random_state seed σ = (Ok random_state, σ') → σ' = σ.
Proof.
  unfold check_random_state. destruct seed; [by intros [_ ->]%mret_Ok| |
    by intros [_ ->]%mret_Ok].
  case_bool_decide; [by intros [_ ->]%mret_Ok|done].
Qed.

Lemma fit_resample_Ok self X y sample_weight σ out σ' :
  _fit_resample self X y sample_weight σ = (Ok out, σ') ↔
  resample_run self X y sample_weight σ out σ'.
Proof.
  unfold _fit_resample. split.
  - intros Hrun.
    apply bind_Ok in Hrun as ([] & σ0 & Hval & Hrun).
    apply bind_Ok in Hrun as (r & σa & Hrs & Hrun).
    pose proof (check_random_state_Ok _ _ _ _ Hrs) as ->.
    apply bind_Ok in Hrun as (m & σa & Hmin & Hrun).
    apply lift_Ok in Hmin as [Hmin ->].
    apply bind_Ok in Hrun as ([idx r'] & σ1 & Hfold & Hrun).
    apply class_loop_run in Hfold as (segs & -> & Hfold). simpl in *.
    apply bind_Ok in Hrun as ([] & σ2 & Hset & Hrun).
    injection Hset as <-.
    destruct sample_weight as [w|].
    + apply bind_Ok in Hrun as (sw_res & σa & Hsw & Hrun).
      apply lift_Ok in Hsw as [Hsw ->].
      apply bind_Ok in Hrun as (X_res & σa & HX & Hrun).
      apply lift_Ok in HX as [HX ->].
      apply bind_Ok in Hrun as (y_res & σa & Hy & Hrun).
      apply lift_Ok in Hy as [Hy ->].
      apply mret_Ok in Hrun as [-> ->].
      econstructor; [done..|]. by constructor.
    + apply bind_Ok in Hrun as (X_res & σa & HX & Hrun).
      apply lift_Ok in HX as [HX ->].
      apply bind_Ok in Hrun as (y_res & σa & Hy & Hrun).
      apply lift_Ok in Hy as [Hy ->].
      apply mret_Ok in Hrun as [-> ->].
      econstructor; [done..|]. by constructor.
  - intros [σ0 r m segs r' σ1 out' Hval Hrs Hmin Hrun Hout].
    apply bind_Ok. eexists _, _. split; [done|].
    apply bind_Ok. eexists _, _. split; [done|].
    apply bind_Ok. eexists _, _. split; [by apply lift_Ok|].
    apply bind_Ok. eexists (_, _), _. split.
    { apply class_loop_run. eexists. split; [|done]. done. }
    simpl. apply bind_Ok. eexists _, _. split; [done|].
    destruct Hout.
    + apply bind_Ok. eexists _, _. split; [by apply lift_Ok|].
      apply bind_Ok. eexists _, _. split; [by apply lift_Ok|].
      by apply mret_Ok.
    + apply bind_Ok. eexists _, _. split; [by apply lift_Ok|].
      apply bind_Ok. eexists _, _. split; [by apply lift_Ok|].
      apply bind_Ok. eexists _, _. split; [by apply lift_Ok|].
      by apply mret_Ok.
Qed.

End Classes.

(** ** The segments of the selection *)

(** The entries of the selection [idx_under] whose row has the label [c]. *)
Definition emitted_for (y : list Z) (idx_under : list nat) (c : Z)
  : list nat :=
  filter (λ i, y !! i = Some c) idx_under.

Section Segments.
Context `{Classifier} `{RandomSource} {Weight : Type}.

Lemma unique_labels_sorted (y : list Z) :
  StronglySorted Z.lt (np.unique Z.le y).
Proof.
  pose proof (unique_sorted Z.le y) as Hsorted.
  pose proof (unique_NoDup Z.le y) as Hnd.
  induction Hsorted as [|c l Hl IH Hc]; [constructor|].
  apply NoDup_cons in Hnd as [Hnotin Hnd].
  constructor; [by apply IH|].
  apply Forall_forall. intros c' Hc'.
  rewrite Forall_forall in Hc. specialize (Hc c' Hc').
  assert (c ≠ c') by (intros ->; done). lia.
Qed.

(** A turn for the class [c] appends rows of [c] only, and all of them
    when [c] is not targeted. *)
Lemma class_step_segment self X y target_stats class_minority random_state
    c σ seg random_state' σ' :
  class_step self X y target_stats class_minority ([], random_state) c σ
  = (Ok (seg, random_state'), σ') →
  Forall (λ i, y !! i = Some c) seg ∧
  (c ∉ dom (sampling_strategy_ self) →
   seg = np.flatnonzero (np.eq_scalar y c)).
Proof.
  intros (seg' & [= ->] & Hseg)%class_step_Ok.
  case_bool_decide as Htarget.
  - destruct Hseg as (su & σ1 & st & Hsu & Hloop & -> & ->). split; [|done].
    destruct (class_loop_invariant _ _ _ _ _ _ _ _ _ _ _ _ _ Hsu Hloop)
      as (_ & _ & added & -> & Hadded).
    apply class_setup_Ok in Hsu. destruct Hsu. simpl in *.
    apply Forall_app. split.
    + apply Forall_forall. intros i Hi. eapply class_indices_spec.
      by eapply take_elem_of.
    + eapply Forall_impl; [done|]. intros i Hi. by apply class_indices_spec.
  - destruct Hseg as (-> & -> & ->). split; [|done].
    apply Forall_forall. intros i Hi. by apply class_indices_spec.
Qed.

Lemma class_run_segments self X y target_stats class_minority random_state σ
    classes segs random_state' σ' :
  class_run self X y target_stats class_minority random_state σ classes segs
            random_state' σ' →
  Forall2 (λ c seg,
      Forall (λ i, y !! i = Some c) seg ∧
      (c ∉ dom (sampling_strategy_ self) →
       seg = np.flatnonzero (np.eq_scalar y c)))
    classes segs.
Proof.
  induction 1 as [|r σ c classes seg segs r1 σ1 r2 σ2 Hstep _ IH];
    constructor; [|done].
  by eapply class_step_segment.
Qed.

(** Filtering the selection by a label gives back the segment of that
    label. *)
Lemma emitted_for_segment (y : list Z) (classes : list Z)
    (segs : list (list nat)) (k : nat) (c : Z) (seg : list nat) :
  NoDup classes →
  Forall2 (λ c seg, Forall (λ i, y !! i = Some c) seg) classes segs →
  classes !! k = Some c → segs !! k = Some seg →
  emitted_for y (concat segs) c = seg.
Proof.
  unfold emitted_for. intros Hnd Hsegs. revert k.
  induction Hsegs as [|c' seg' classes segs Hseg' Hsegs IH]; intros k Hc Hk;
    [done|].
  apply NoDup_cons in Hnd as [Hc' Hnd]. simpl. rewrite filter_app.
  assert (Hother : ∀ c0 segs0 classes0,
            Forall2 (λ c seg, Forall (λ i, y !! i = Some c) seg)
                    classes0 segs0 →
            c0 ∉ classes0 →
            filter (λ i, y !! i = Some c0) (concat segs0) = []).
  { clear. intros c0 segs0 classes0 Hall.
    induction Hall as [|c1 seg1 classes1 segs1 Hseg1 _ IH1]; [done|].
    intros [Hne Hc0]%not_elem_of_cons. simpl.
    rewrite filter_app, IH1, app_nil_r by done.
    induction Hseg1 as [|i seg1 Hi _ IHseg]; [done|].
    rewrite filter_cons_False by congruence. done. }
  destruct k as [|k]; simpl in *.
  - injection Hc as ->. injection Hk as ->.
    rewrite (Hother c segs classes) by done. rewrite app_nil_r.
    clear -Hseg'. induction Hseg' as [|i seg Hi _ IHseg]; [done|].
    rewrite filter_cons_True by done. by rewrite IHseg.
  - rewrite (IH Hnd k) by done.
    assert (Hne : c ≠ c').
    { intros ->. apply Hc'. by eapply list_elem_of_lookup_2. }
    replace (filter _ seg') with (@nil nat); [done|].
    clear -Hseg' Hne. induction Hseg' as [|i seg Hi _ IHseg]; [done|].
    rewrite filter_cons_False by congruence. done.
Qed.

End Segments.

(** * The claims *)

Import nn1 lcg.

(** The scenario of the specification: five rows of label 0 and three of
    label 1, label 0 is targeted, one seed, one neighbour. *)
Module scenario.

Definition self : CondensedNearestNeighbour := demo.sampler [0%Z] 0 1.
Definition X : list Z := [0; 1; 2; 3; 4; 10; 11; 12]%Z.
Definition y : list Z := [0; 0; 0; 0; 0; 1; 1; 1]%Z.
Definition weights : list Z := [10; 11; 12; 13; 14; 15; 16; 17]%Z.

Definition run : result (resampled (Weight:=Z)) * store :=
  Eval vm_compute in _fit_resample self X y None demo.store0.

Definition run_weighted : result (resampled (Weight:=Z)) * store :=
  Eval vm_compute in _fit_resample self X y (Some weights) demo.store0.

Definition out : resampled (Weight:=Z) :=
  Eval vm_compute in
    match run.1 with Ok o => o | Raise _ => Resampled2 [] [] end.

Definition out_weighted : resampled (Weight:=Z) :=
  Eval vm_compute in
    match run_weighted.1 with Ok o => o | Raise _ => Resampled2 [] [] end.

(** The store and the generator at the turn for label 0, and what the
    lines before the loop over the candidates leave. *)
Definition entry : store :=
  Eval vm_compute in (_validate_estimator self demo.store0).2.

Definition rng : rng_ref := RefFresh (RandomState 0).

Definition setup_run : result cnn_setup * store :=
  Eval vm_compute in class_setup self X y (Counter y) 1%Z rng 0%Z entry.

Definition setup : cnn_setup :=
  Eval vm_compute in
    match setup_run.1 with
    | Ok su => su
    | Raise _ =>
        {| setup_random_state := rng; setup_idx_maj := []; setup_S_x := [];
           setup_S_y := [];
           setup_locals := {| idx_maj_sample := []; C_indices := [];
                              good_classif_label := [] |} |}
    end.

End scenario.

Section Passthrough.
Context `{Classifier} `{RandomSource} {Weight : Type}.

(** C4.  When [_fit_resample] returns, the selection [sample_indices_] is
    the concatenation of one segment for each distinct label of [y], the
    labels in strictly ascending order; a segment holds rows of its own
    label only; and for a label that is not a key of the sampling
    strategy the segment is exactly that label's full index set
    [flatnonzero(y == label)], which is also what filtering the whole
    selection by that label gives. *)
Theorem passthrough_exactness (self : CondensedNearestNeighbour)
    (X : list Row) (y : list Z) (sample_weight : option (list Weight))
    (σ σ' : store) (out : resampled (Weight:=Weight)) :
  _fit_resample self X y sample_weight σ = (Ok out, σ') →
  ∃ segs : list (list nat),
    sample_indices_ σ' = Some (concat segs) ∧
    StronglySorted Z.lt (np.unique Z.le y) ∧
    (∀ c, c ∈ np.unique Z.le y ↔ c ∈ y) ∧
    Forall2 (λ c seg,
        Forall (λ i, y !! i = Some c) seg ∧
        (c ∉ dom (sampling_strategy_ self) →
         seg = np.flatnonzero (np.eq_scalar y c)))
      (np.unique Z.le y) segs ∧
    ∀ c, c ∈ y → c ∉ dom (sampling_strategy_ self) →
      emitted_for y (concat segs) c = np.flatnonzero (np.eq_scalar y c).
Proof.
  intros Hrun%fit_resample_Ok.
  destruct Hrun as [σ0 r m segs r' σ1 out' Hval Hrs Hmin Hrun Hout].
  pose proof (class_run_segments _ _ _ _ _ _ _ _ _ _ _ Hrun) as Hsegs.
  exists segs. split_and!; [done|apply unique_labels_sorted| |done|].
  { intros c. apply unique_elem_of. }
  intros c Hc Hkeep.
  apply (unique_elem_of Z.le) in Hc as [k Hk]%list_elem_of_lookup.
  destruct (Forall2_lookup_l _ _ _ _ _ Hsegs Hk) as (seg & Hseg & _ & Hfull).
  rewrite <-(Hfull Hkeep).
  eapply emitted_for_segment; [apply (unique_NoDup Z.le)| |done..].
  eapply Forall2_impl; [done|]. by intros ?? [? _].
Qed.

End Passthrough.

Lemma passthrough_exactness_witness :
  ∃ segs : list (list nat),
    sample_indices_ scenario.run.2 = Some (concat segs) ∧
    StronglySorted Z.lt (np.unique Z.le scenario.y) ∧
    (∀ c, c ∈ np.unique Z.le scenario.y ↔ c ∈ scenario.y) ∧
    Forall2 (λ c seg,
        Forall (λ i, scenario.y !! i = Some c) seg ∧
        (c ∉ dom (sampling_strategy_ scenario.self) →
         seg = np.flatnonzero (np.eq_scalar scenario.y c)))
      (np.unique Z.le scenario.y) segs ∧
    ∀ c, c ∈ scenario.y → c ∉ dom (sampling_strategy_ scenario.self) →
      emitted_for scenario.y (concat segs) c
      = np.flatnonzero (np.eq_scalar scenario.y c).
Proof.
  apply (passthrough_exactness (Weight:=Z) scenario.self scenario.X
           scenario.y None demo.store0 scenario.run.2 scenario.out).
  reflexivity.
Defined.

(** [n_neighbors] is an integer or a classifier instance. *)
Definition int_or_classifier `{Classifier} (n : n_neighbors_t) : bool :=
  match n with
  | NInt _ | NClassifier _ => true
  | NNone | NOther _ => false
  end.

Section Validation.
Context `{Classifier} `{RandomSource} {Weight : Type}.

(** C3, as amended.  When [n_neighbors] is an object that is neither
    [None], nor an integer, nor a classifier instance, [_fit_resample]
    raises the [ValueError] of [_validate_estimator] whatever the data
    are, and the store is left as it was: no attribute is set, no number
    is drawn, nothing is fitted.  When [n_neighbors] is [None], an
    integer or a classifier instance, [_validate_estimator] returns and
    leaves an unfitted estimator in [estimator_]: one neighbour for
    [None], [k] neighbours for the integer [k], a clone for an
    instance. *)
Theorem validate_estimator_cases (self : CondensedNearestNeighbour)
    (X : list Row) (y : list Z) (sample_weight : option (list Weight))
    (σ : store) :
  match n_neighbors self with
  | NOther type_name =>
      _fit_resample self X y sample_weight σ =
      (Raise (ValueError
         ("`n_neighbors` has to be a int or an object inhereited from KNeighborsClassifier. Got "
          +:+ type_name +:+ " instead.")), σ)
  | NNone =>
      _validate_estimator self σ =
      (Ok (), {| estimator_ :=
                   Some {| est_params := KNeighborsClassifier 1 (n_jobs self);
                           est_model := None |};
                 sample_indices_ := sample_indices_ σ;
                 np_random := np_random σ; rs_instance := rs_instance σ |})
  | NInt k =>
      _validate_estimator self σ =
      (Ok (), {| estimator_ :=
                   Some {| est_params := KNeighborsClassifier k (n_jobs self);
                           est_model := None |};
                 sample_indices_ := sample_indices_ σ;
                 np_random := np_random σ; rs_instance := rs_instance σ |})
  | NClassifier e =>
      _validate_estimator self σ =
      (Ok (), {| estimator_ :=
                   Some {| est_params := est_params e; est_model := None |};
                 sample_indices_ := sample_indices_ σ;
                 np_random := np_random σ; rs_instance := rs_instance σ |})
  end.
Proof.
  unfold _fit_resample, _validate_estimator.
  destruct (n_neighbors self) as [|k|e|type_name]; done.
Qed.

End Validation.

(** C3 as the specification words it fails for [n_neighbors=None], the
    default: [None] is neither an integer nor a classifier instance, and
    the scenario returns. *)
Lemma fail_fast_counterexample :
  int_or_classifier (n_neighbors scenario.self) = false ∧
  _fit_resample (Weight:=Z) scenario.self scenario.X scenario.y None
                demo.store0
  = (Ok (Resampled2 [0; 10; 11; 12]%Z [0; 1; 1; 1]%Z), scenario.run.2).
Proof. split; reflexivity. Qed.

Section Assembly.
Context `{Classifier} `{RandomSource} {Weight : Type}.

(** C7.  When [_fit_resample] returns, every entry of the selection
    [sample_indices_] is the position of a row: it is below the length of
    [y], and below the lengths of [X] and of [sample_weight], which were
    gathered at it. *)
Theorem emitted_in_range (self : CondensedNearestNeighbour)
    (X : list Row) (y : list Z) (sample_weight : option (list Weight))
    (σ σ' : store) (out : resampled (Weight:=Weight)) :
  _fit_resample self X y sample_weight σ = (Ok out, σ') →
  ∃ idx_under : list nat,
    sample_indices_ σ' = Some idx_under ∧
    Forall (λ i, i < length y ∧ i < length X ∧
                 ∀ w, sample_weight = Some w → i < length w) idx_under.
Proof.
  intros Hrun%fit_resample_Ok.
  destruct Hrun as [σ0 r m segs r' σ1 out' Hval Hrs Hmin Hrun Hout].
  exists (concat segs). split; [done|].
  pose proof (class_run_segments _ _ _ _ _ _ _ _ _ _ _ Hrun) as Hsegs.
  assert (Hy : Forall (λ i, i < length y) (concat segs)).
  { apply Forall_concat. clear -Hsegs.
    induction Hsegs as [|c seg classes segs [Hseg _] _ IH]; constructor;
      [|done].
    eapply Forall_impl; [done|]. intros i Hi. simpl in *.
    by eapply lookup_lt_Some. }
  assert (HX : Forall (λ i, i < length X) (concat segs)).
  { destruct Hout; by eapply take_in_range. }
  assert (Hw : ∀ w, sample_weight = Some w →
                    Forall (λ i, i < length w) (concat segs)).
  { intros w ->. inv Hout. by eapply take_in_range. }
  apply Forall_forall. intros i Hi.
  rewrite Forall_forall in Hy, HX. split_and!; [by auto..|].
  intros w Hsw. specialize (Hw w Hsw). rewrite Forall_forall in Hw. auto.
Qed.

(** C10.  When [_fit_resample] returns, [sample_indices_] holds the list
    [idx_under] that the loop over the classes accumulated from the empty
    list; without [sample_weight] the result is the pair of [X] and [y]
    gathered entry by entry at [idx_under], in the order of [idx_under];
    with [sample_weight] it is the triple of [X], [y] and [sample_weight]
    gathered at the same entries. *)
Theorem result_assembly (self : CondensedNearestNeighbour)
    (X : list Row) (y : list Z) (sample_weight : option (list Weight))
    (σ σ' : store) (out : resampled (Weight:=Weight)) :
  _fit_resample self X y sample_weight σ = (Ok out, σ') →
  ∃ (idx_under : list nat) σ0 rng class_minority rng' σ1,
    _validate_estimator self σ = (Ok (), σ0) ∧
    foldM (class_step self X y (Counter y) class_minority) ([], rng)
          (np.unique Z.le y) σ0 = (Ok (idx_under, rng'), σ1) ∧
    sample_indices_ σ' = Some idx_under ∧
    match sample_weight with
    | None =>
        ∃ X_res y_res,
          out = Resampled2 X_res y_res ∧
          Forall2 (λ i x, X !! i = Some x) idx_under X_res ∧
          Forall2 (λ i l, y !! i = Some l) idx_under y_res
    | Some w =>
        ∃ X_res y_res sw_res,
          out = Resampled3 X_res y_res sw_res ∧
          Forall2 (λ i x, X !! i = Some x) idx_under X_res ∧
          Forall2 (λ i l, y !! i = Some l) idx_under y_res ∧
          Forall2 (λ i v, w !! i = Some v) idx_under sw_res
    end.
Proof.
  intros Hrun%fit_resample_Ok.
  destruct Hrun as [σ0 r m segs r' σ1 out' Hval Hrs Hmin Hrun Hout].
  exists (concat segs), σ0, r, m, r', σ1. split_and!; [done| |done|].
  { apply class_loop_run. by exists segs. }
  destruct Hout as [X_res y_res HX Hy|w X_res y_res sw_res Hw HX Hy].
  - exists X_res, y_res. split_and!; [done|by apply take_spec..].
  - exists X_res, y_res, sw_res. split_and!; [done|by apply take_spec..].
Qed.

End Assembly.

Lemma emitted_in_range_witness :
  ∃ idx_under : list nat,
    sample_indices_ scenario.run_weighted.2 = Some idx_under ∧
    Forall (λ i, i < length scenario.y ∧ i < length scenario.X ∧
                 ∀ w, Some scenario.weights = Some w → i < length w)
           idx_under.
Proof.
  apply (emitted_in_range scenario.self scenario.X scenario.y
           (Some scenario.weights) demo.store0 scenario.run_weighted.2
           scenario.out_weighted).
  reflexivity.
Defined.

Lemma result_assembly_witness :
  ∃ (idx_under : list nat) σ0 rng class_minority rng' σ1,
    _validate_estimator scenario.self demo.store0 = (Ok (), σ0) ∧
    foldM (class_step scenario.self scenario.X scenario.y
                      (Counter scenario.y) class_minority) ([], rng)
          (np.unique Z.le scenario.y) σ0 = (Ok (idx_under, rng'), σ1) ∧
    sample_indices_ scenario.run_weighted.2 = Some idx_under ∧
    match Some scenario.weights with
    | None =>
        ∃ X_res y_res,
          scenario.out_weighted = Resampled2 X_res y_res ∧
          Forall2 (λ i x, scenario.X !! i = Some x) idx_under X_res ∧
          Forall2 (λ i l, scenario.y !! i = Some l) idx_under y_res
    | Some w =>
        ∃ X_res y_res sw_res,
          scenario.out_weighted = Resampled3 X_res y_res sw_res ∧
          Forall2 (λ i x, scenario.X !! i = Some x) idx_under X_res ∧
          Forall2 (λ i l, scenario.y !! i = Some l) idx_under y_res ∧
          Forall2 (λ i v, w !! i = Some v) idx_under sw_res
    end.
Proof.
  apply (result_assembly scenario.self scenario.X scenario.y
           (Some scenario.weights) demo.store0 scenario.run_weighted.2
           scenario.out_weighted).
  reflexivity.
Defined.

(** ** The seeds *)

Section Seeds.
Context `{Classifier} `{RandomSource} {Weight : Type}.

Lemma flatnonzero_from_length (y : list Z) (c : Z) (i : nat) :
  length (np.flatnonzero_from i (np.eq_scalar y c)) = count_of c y.
Proof.
  unfold count_of. revert i.
  induction y as [|v y IH]; intros i; csimpl; [done|].
  case_bool_decide as Hv.
  - rewrite filter_cons_True by done. simpl. by rewrite IH.
  - rewrite filter_cons_False by done. by rewrite IH.
Qed.

(** The count that [Counter] keeps for a class is the number of its
    rows. *)
Lemma class_count (y : list Z) (c : Z) :
  counter_get (Counter y) c = length (np.flatnonzero (np.eq_scalar y c)).
Proof.
  unfold np.flatnonzero.
  by rewrite counter_get_Counter, flatnonzero_from_length.
Qed.

(** The segment of a targeted class: the rows of the class at the
    positions drawn, one for each draw, followed by rows of the class. *)
Lemma class_step_seeds self X y class_minority rng c σ seg rng' σ' :
  c ∈ dom (sampling_strategy_ self) →
  class_step self X y (Counter y) class_minority ([], rng) c σ
  = (Ok (seg, rng'), σ') →
  ∃ draws seeds added,
    draws = (randint (rng_state rng σ)
                     (length (np.flatnonzero (np.eq_scalar y c)))
                     (n_seeds_S self)).1 ∧
    length draws = n_seeds_S self ∧
    Forall (λ d, d < length (np.flatnonzero (np.eq_scalar y c))) draws ∧
    Forall2 (λ d s, np.flatnonzero (np.eq_scalar y c) !! d = Some s)
            draws seeds ∧
    seg = seeds ++ added ∧
    Forall (λ i, i ∈ np.flatnonzero (np.eq_scalar y c)) (seeds ++ added).
Proof.
  intros Htarget (seg' & [= ->] & Hseg)%class_step_Ok.
  rewrite bool_decide_eq_true_2 in Hseg by done.
  destruct Hseg as (su & σ1 & st & Hsu & Hloop & -> & ->).
  destruct (class_loop_invariant _ _ _ _ _ _ _ _ _ _ _ _ _ Hsu Hloop)
    as (_ & _ & added & -> & Hadded).
  apply class_setup_Ok in Hsu.
  destruct Hsu as [draws r' σ0 seeds C_x0 C_y0 S_x S_y e0 m0
                     Hdraw Hseeds HCx0 HCy0 HSx HSy He0 Hfit0].
  simpl in *. rewrite class_count in Hdraw.
  apply randint_at_Ok in Hdraw as (Hhigh & -> & _).
  eexists _, seeds, added. split_and!; [done| | | |done|].
  - apply randint_length.
  - by apply randint_range.
  - by apply take_spec.
  - apply Forall_app. split; [|done].
    apply Forall_forall. intros i Hi. by eapply take_elem_of.
Qed.

(** C6.  When [_fit_resample] returns, then for every targeted class [c]
    of [y] the entries of the selection with label [c] are [seeds ++
    added], where [seeds] holds, draw by draw and with every repetition,
    the rows found in the index set of [c] at the [n_seeds_S] positions
    that one call [randint(0, number of rows of c, n_seeds_S)] of the
    generator answered (each below the number of rows of [c], none
    excluded by an earlier draw), and every entry of [seeds ++ added]
    belongs to the index set of [c]. *)
Theorem seed_inclusion (self : CondensedNearestNeighbour)
    (X : list Row) (y : list Z) (sample_weight : option (list Weight))
    (σ σ' : store) (out : resampled (Weight:=Weight)) :
  _fit_resample self X y sample_weight σ = (Ok out, σ') →
  ∃ idx_under : list nat,
    sample_indices_ σ' = Some idx_under ∧
    ∀ c, c ∈ y → c ∈ dom (sampling_strategy_ self) →
      ∃ rng σc draws seeds added,
        draws = (randint (rng_state rng σc)
                         (length (np.flatnonzero (np.eq_scalar y c)))
                         (n_seeds_S self)).1 ∧
        length draws = n_seeds_S self ∧
        Forall (λ d, d < length (np.flatnonzero (np.eq_scalar y c))) draws ∧
        Forall2 (λ d s, np.flatnonzero (np.eq_scalar y c) !! d = Some s)
                draws seeds ∧
        emitted_for y idx_under c = seeds ++ added ∧
        Forall (λ i, i ∈ np.flatnonzero (np.eq_scalar y c)) (seeds ++ added).
Proof.
  intros Hrun%fit_resample_Ok.
  destruct Hrun as [σ0 r m segs r' σ1 out' Hval Hrs Hmin Hrun Hout].
  exists (concat segs). split; [done|]. intros c Hc Htarget.
  pose proof (class_run_segments _ _ _ _ _ _ _ _ _ _ _ Hrun) as Hsegs.
  apply (unique_elem_of Z.le) in Hc as [k Hk]%list_elem_of_lookup.
  destruct (Forall2_lookup_l _ _ _ _ _ Hsegs Hk) as (seg & Hseg & _).
  assert (Hemit : emitted_for y (concat segs) c = seg).
  { eapply emitted_for_segment; [apply (unique_NoDup Z.le)| |done..].
    eapply Forall2_impl; [done|]. by intros ?? [? _]. }
  rewrite Hemit. clear Hsegs Hemit Hout Hval Hrs.
  revert k Hk Hseg.
  induction Hrun as [|ra σa c' classes seg' segs ra1 σa1 ra2 σa2 Hstep _ IH];
    intros k Hk Hseg; [done|].
  destruct k as [|k]; simpl in *.
  - injection Hk as ->. injection Hseg as ->.
    destruct (class_step_seeds _ _ _ _ _ _ _ _ _ _ Htarget Hstep)
      as (draws & seeds & added & Hd & Hlen & Hrange & Hseeds & Hseg & Hin).
    by exists ra, σa, draws, seeds, added.
  - by eapply IH.
Qed.

End Seeds.

Lemma seed_inclusion_witness :
  ∃ idx_under : list nat,
    sample_indices_ scenario.run.2 = Some idx_under ∧
    ∀ c, c ∈ scenario.y → c ∈ dom (sampling_strategy_ scenario.self) →
      ∃ rng σc draws seeds added,
        draws = (randint (rng_state rng σc)
                   (length (np.flatnonzero (np.eq_scalar scenario.y c)))
                   (n_seeds_S scenario.self)).1 ∧
        length draws = n_seeds_S scenario.self ∧
        Forall (λ d, d < length (np.flatnonzero (np.eq_scalar scenario.y c)))
               draws ∧
        Forall2 (λ d s,
                   np.flatnonzero (np.eq_scalar scenario.y c) !! d = Some s)
                draws seeds ∧
        emitted_for scenario.y idx_under c = seeds ++ added ∧
        Forall (λ i, i ∈ np.flatnonzero (np.eq_scalar scenario.y c))
               (seeds ++ added).
Proof.
  apply (seed_inclusion (Weight:=Z) scenario.self scenario.X scenario.y None
           demo.store0 scenario.run.2 scenario.out).
  reflexivity.
Defined.

(** Two seeds that fall on one row stay two entries of the selection:
    with the seed 1 both draws are 0. *)
Example seeds_with_replacement :
  (randint (RandomState 1) 5 2).1 = [0; 0] ∧
  sample_indices_
    (_fit_resample (Weight:=Z) (demo.sampler [0%Z] 1 2) scenario.X scenario.y
                   None demo.store0).2
  = Some [0; 0; 5; 6; 7].
Proof. split; reflexivity. Qed.

(** ** Full agreement *)

Section Agreement.
Context `{Classifier} `{RandomSource} {Weight : Type}.

Lemma enumerate_elem_of {A} (l : list A) (i : nat) (a : A) :
  (i, a) ∈ enumerate l ↔ l !! i = Some a.
Proof.
  unfold enumerate. rewrite list_elem_of_lookup. split.
  - intros (k & (i' & a' & [= <- <-] & Hi & Ha)%lookup_zip_with_Some).
    apply lookup_seq in Hi as [-> _]. done.
  - intros Ha. exists i. apply lookup_zip_with_Some. exists i, a.
    split_and!; [done| |done].
    apply lookup_seq. split; [done|]. by eapply lookup_lt_Some.
Qed.

Lemma foldM_unchanged {A B} (f : B → A → M B) (b : B) (l : list A) σ :
  (∀ a, a ∈ l → f b a σ = (Ok b, σ)) → foldM f b l σ = (Ok b, σ).
Proof.
  induction l as [|a l IH]; intros Hf; simpl; [done|].
  apply bind_Ok. exists b, σ. split; [apply Hf; left|].
  apply IH. intros a' Ha'. apply Hf. by right.
Qed.

(** C9.  For a targeted class, let the lines before the loop return: the
    selection is the seeds, and the estimator is fitted on the minority
    rows followed by the seeds.  If that estimator answers, for every
    candidate of the class taken alone, the label of the candidate, then
    the turn for the class returns, appends exactly the seeds to
    [idx_under] and leaves the estimator as the lines before the loop
    fitted it. *)
Theorem full_agreement_no_growth (self : CondensedNearestNeighbour)
    (X : list Row) (y : list Z) (target_stats : list (Z * nat))
    (class_minority : Z) (idx_under : list nat) (rng : rng_ref)
    (target_class : Z) (σ σ1 : store) (su : cnn_setup) :
  target_class ∈ dom (sampling_strategy_ self) →
  class_setup self X y target_stats class_minority rng target_class σ
  = (Ok su, σ1) →
  (∀ pos x_sam y_sam,
     setup_S_x su !! pos = Some x_sam → setup_S_y su !! pos = Some y_sam →
     estimator_predict [x_sam] σ1 = (Ok [y_sam], σ1)) →
  fitted_on X y
    (np.flatnonzero (np.eq_scalar y class_minority) ++
     idx_maj_sample (setup_locals su)) σ1 ∧
  class_step self X y target_stats class_minority (idx_under, rng)
             target_class σ
  = (Ok (idx_under ++ idx_maj_sample (setup_locals su),
         setup_random_state su), σ1).
Proof.
  intros Htarget Hsu Hagree. split.
  - destruct (class_loop_invariant self X y target_stats class_minority rng
                target_class σ su σ1 [] (setup_locals su) σ1 Hsu)
      as (Hfit & HC & _); [done|].
    by rewrite <-HC.
  - apply class_step_Ok. eexists. split; [done|].
    rewrite bool_decide_eq_true_2 by done.
    exists su, σ1, (setup_locals su). split_and!; [done| |done..].
    unfold class_loop. apply foldM_unchanged.
    intros [pos [x_sam y_sam]] Hcand%enumerate_elem_of.
    apply lookup_zip_with_Some in Hcand as (x & l & [= <- <-] & Hx & Hl).
    apply loop_body_turn.
    destruct (skip_test pos (setup_locals su)) eqn:Hskip.
    + by apply turn_skipped.
    + apply turn_agreed; [done|]. by eapply Hagree.
Qed.

End Agreement.

Lemma full_agreement_no_growth_witness :
  fitted_on scenario.X scenario.y
    (np.flatnonzero (np.eq_scalar scenario.y 1%Z) ++
     idx_maj_sample (setup_locals scenario.setup)) scenario.setup_run.2 ∧
  class_step scenario.self scenario.X scenario.y (Counter scenario.y) 1%Z
             ([], scenario.rng) 0%Z scenario.entry
  = (Ok ([] ++ idx_maj_sample (setup_locals scenario.setup),
         setup_random_state scenario.setup), scenario.setup_run.2).
Proof.
  apply (full_agreement_no_growth scenario.self scenario.X scenario.y
           (Counter scenario.y) 1%Z [] scenario.rng 0%Z scenario.entry
           scenario.setup_run.2 scenario.setup).
  - apply elem_of_dom. exists 1. reflexivity.
  - reflexivity.
  - intros [|[|[|[|[|pos]]]]] x_sam y_sam; simpl;
      intros [= <-] [= <-]; reflexivity.
Defined.

(** ** The minority class *)

Section Minority.
Context `{Classifier} `{RandomSource} {Weight : Type}.


End Minority.


(** A tie between the labels: 7 and 3 both occur twice, and [y] shows 7
    first. *)
Example minority_tie_first_seen :
  min_key (Counter [7; 3; 5; 3; 5; 7; 5]%Z) = Ok 7%Z.
Proof. reflexivity. Qed.

(** ** The well classified entries *)

(** A run with one misclassified candidate: the minority rows 0, 1, 2
    lie at 10, 11, 12; the targeted rows 3, 4, 5, 6 lie at 0, 1, 20, 21;
    the seed is row 3 (queue position 0); the candidate at position 2
    (row 5, at 20) is closest to 12 and is added. *)
Module retrain.

Definition self : CondensedNearestNeighbour := demo.sampler [0%Z] 3 1.
Definition X : list Z := [10; 11; 12; 0; 1; 20; 21]%Z.
Definition y : list Z := [1; 1; 1; 0; 0; 0; 0]%Z.

Definition entry : store :=
  Eval vm_compute in (_validate_estimator self demo.store0).2.

Definition rng : rng_ref := RefFresh (RandomState 3).

Definition setup_run : result cnn_setup * store :=
  Eval vm_compute in class_setup self X y (Counter y) 1%Z rng 0%Z entry.

Definition setup : cnn_setup :=
  Eval vm_compute in
    match setup_run.1 with
    | Ok su => su
    | Raise _ =>
        {| setup_random_state := rng; setup_idx_maj := []; setup_S_x := [];
           setup_S_y := [];
           setup_locals := {| idx_maj_sample := []; C_indices := [];
                              good_classif_label := [] |} |}
    end.

(** The locals and the store after the candidates at the positions 0, 1
    and 2. *)
Definition after_retrain_run : result cnn_locals * store :=
  Eval vm_compute in
    class_loop X y setup (setup_locals setup)
      (take 3 (enumerate (zip (setup_S_x setup) (setup_S_y setup))))
      setup_run.2.

Definition after_retrain : cnn_locals :=
  Eval vm_compute in
    match after_retrain_run.1 with
    | Ok st => st
    | Raise _ => setup_locals setup
    end.

End retrain.

(** The well classified entries as the specification words them: the
    original seed indices, and the indices of the queue whose fresh
    prediction is their label. *)
Definition well_classified_as_specified (seeds S_indices : list nat)
    (pred_S_y S_y : list Z) (v : nat) : Prop :=
  v ∈ seeds ∨
  ∃ pos l, S_indices !! pos = Some v ∧
           pred_S_y !! pos = Some l ∧ S_y !! pos = Some l.

(** The same with the queue read by position. *)
Definition well_classified_by_position (seeds : list nat)
    (pred_S_y S_y : list Z) (v : nat) : Prop :=
  v ∈ seeds ∨ ∃ l, pred_S_y !! v = Some l ∧ S_y !! v = Some l.

(** C2 fails on the code.  In the run [retrain] the seed is the candidate
    at position 0 of the queue, row 3 of the data, and
    [good_classif_label] starts as the seeds, [3].  The candidate at
    position 2 (row 5) is misclassified and added, the estimator is
    fitted again and then gives every candidate of the queue (the rows
    3, 4, 5, 6) its own label.  [good_classif_label] becomes
    [0; 1; 2; 3; 5]: the rows 3 and 5 of the selection next to the
    positions 0, 1, 2, 3 of the queue.  That is not the union of the seeds
    and the well classified entries of the queue, whether the entries
    are rows (3, 4, 5, 6, from the seed alone or from the whole
    selection) or positions (0, 1, 2, 3, from the position of the seed
    alone or of the whole selection), nor the rows of the seeds united
    with the positions: it holds 0, which is no row of the queue, and 5,
    which is no position of it, and it lacks the well classified
    row 4. *)
Theorem well_classified_mixes_rows_and_positions :
  (randint (RandomState 3%Z) 4 1).1 = [0] ∧
  idx_maj_sample (setup_locals retrain.setup) = [3] ∧
  good_classif_label (setup_locals retrain.setup) = [3] ∧
  setup_idx_maj retrain.setup = [3; 4; 5; 6] ∧
  setup_S_y retrain.setup = [0; 0; 0; 0]%Z ∧
  class_loop retrain.X retrain.y retrain.setup (setup_locals retrain.setup)
    (take 3 (enumerate (zip (setup_S_x retrain.setup)
                            (setup_S_y retrain.setup))))
    retrain.setup_run.2
  = (Ok retrain.after_retrain, retrain.after_retrain_run.2) ∧
  estimator_predict (setup_S_x retrain.setup) retrain.after_retrain_run.2
  = (Ok [0; 0; 0; 0]%Z, retrain.after_retrain_run.2) ∧
  idx_maj_sample retrain.after_retrain = [3; 5] ∧
  good_classif_label retrain.after_retrain = [0; 1; 2; 3; 5] ∧
  ¬ (∀ v, v ∈ good_classif_label retrain.after_retrain ↔
          well_classified_as_specified [3] [3; 4; 5; 6]
            [0; 0; 0; 0]%Z [0; 0; 0; 0]%Z v) ∧
  ¬ (∀ v, v ∈ good_classif_label retrain.after_retrain ↔
          well_classified_as_specified [3; 5] [3; 4; 5; 6]
            [0; 0; 0; 0]%Z [0; 0; 0; 0]%Z v) ∧
  ¬ (∀ v, v ∈ good_classif_label retrain.after_retrain ↔
          well_classified_by_position [0] [0; 0; 0; 0]%Z [0; 0; 0; 0]%Z v) ∧
  ¬ (∀ v, v ∈ good_classif_label retrain.after_retrain ↔
          well_classified_by_position [0; 2] [0; 0; 0; 0]%Z [0; 0; 0; 0]%Z
            v) ∧
  ¬ (∀ v, v ∈ good_classif_label retrain.after_retrain ↔
          well_classified_by_position [3] [0; 0; 0; 0]%Z [0; 0; 0; 0]%Z v).
Proof.
  assert (Hrows : ∀ seeds, 0 ∉ seeds →
            ¬ (∀ v, v ∈ [0; 1; 2; 3; 5] ↔
                    well_classified_as_specified seeds [3; 4; 5; 6]
                      [0; 0; 0; 0]%Z [0; 0; 0; 0]%Z v)).
  { intros seeds Hseeds Hall.
    assert (0 ∈ [0; 1; 2; 3; 5]) as Hin by set_solver.
    apply (Hall 0) in Hin as [Hin|(pos & l & Hpos & _)]; [done|].
    by destruct pos as [|[|[|[|[|pos]]]]]. }
  assert (Hpositions : ∀ seeds, 5 ∉ seeds →
            ¬ (∀ v, v ∈ [0; 1; 2; 3; 5] ↔
                    well_classified_by_position seeds
                      [0; 0; 0; 0]%Z [0; 0; 0; 0]%Z v)).
  { intros seeds Hseeds Hall.
    assert (5 ∈ [0; 1; 2; 3; 5]) as Hin by set_solver.
    apply (Hall 5) in Hin as [Hin|(l & Hl & _)]; done. }
  split_and!; [reflexivity..| | | | |].
  - apply Hrows. set_solver.
  - apply Hrows. set_solver.
  - apply Hpositions. set_solver.
  - apply Hpositions. set_solver.
  - apply Hpositions. set_solver.
Qed.

(** ** The skip test *)

Section ByPosition.
Context `{Classifier} `{RandomSource}.

(** Modelled on the specification (the Consistent Set Builder, step 4,
    with the position-based tracking it assumes): the well classified
    entries are positions of the queue, first the positions of the seeds,
    and after a retrain the positions of the seeds and the positions
    whose fresh prediction is their label.  The rest of the turn is the
    one of [loop_body]. *)
Definition loop_body_by_position (X : list Row) (y : list Z)
    (idx_maj : list nat) (S_x : list Row) (S_y : list Z)
    (seed_positions : list nat)
    (st : cnn_locals) (cand : nat * (Row * Z)) : M cnn_locals :=
  let '(idx_sam, (x_sam, y_sam)) := cand in
  if skip_test idx_sam st then mret st
  else
    pred_y ← estimator_predict [x_sam];
    mis ← lift (np.differs y_sam pred_y);
    if (mis : bool) then
      g ← lift (np.item idx_maj idx_sam);
      let idx_maj_sample := idx_maj_sample st ++ [g] in
      let C_indices := C_indices st ++ [g] in
      C_x ← lift (_safe_indexing X C_indices);
      C_y ← lift (_safe_indexing y C_indices);
      estimator_fit C_x C_y;;
      pred_S_y ← estimator_predict S_x;
      let good_classif_label :=
        np.unique le
          (seed_positions ++ np.flatnonzero (np.eq_array pred_S_y S_y)) in
      mret {| idx_maj_sample := idx_maj_sample;
              C_indices := C_indices;
              good_classif_label := good_classif_label |}
    else mret st.

(** Modelled on the specification: the turn for a targeted class with
    the well classified entries tracked by position. *)
Definition class_step_by_position (self : CondensedNearestNeighbour)
    (X : list Row) (y : list Z) (target_stats : list (Z * nat))
    (class_minority : Z)
    (acc : list nat * rng_ref) (target_class : Z) : M (list nat * rng_ref) :=
  let '(idx_under, random_state) := acc in
  let idx_maj := np.flatnonzero (np.eq_scalar y target_class) in
  '(draws, random_state) ←
     randint_at random_state (counter_get target_stats target_class)
                (n_seeds_S self);
  seeds ← lift (np.take idx_maj draws);
  let C_indices :=
    np.flatnonzero (np.eq_scalar y class_minority) ++ seeds in
  C_x ← lift (_safe_indexing X C_indices);
  C_y ← lift (_safe_indexing y C_indices);
  S_x ← lift (_safe_indexing X idx_maj);
  S_y ← lift (_safe_indexing y idx_maj);
  estimator_fit C_x C_y;;
  st ← foldM (loop_body_by_position X y idx_maj S_x S_y draws)
             {| idx_maj_sample := seeds;
                C_indices := C_indices;
                good_classif_label := draws |}
             (enumerate (zip S_x S_y));
  mret (idx_under ++ idx_maj_sample st, random_state).

End ByPosition.

(** A run in which the skip test goes wrong: the minority rows 0, 1 lie
    at 10, 11; the targeted rows 2, 3, 4, 5, 6 lie at 0, 1, 9, 2, 3; the
    seed is row 2, the candidate at position 0 of the queue. *)
Module skip.

Definition self : CondensedNearestNeighbour := demo.sampler [0%Z] 0 1.
Definition X : list Z := [10; 11; 0; 1; 9; 2; 3]%Z.
Definition y : list Z := [1; 1; 0; 0; 0; 0; 0]%Z.

Definition entry : store :=
  Eval vm_compute in (_validate_estimator self demo.store0).2.

Definition rng : rng_ref := RefFresh (RandomState 0).

Definition setup_run : result cnn_setup * store :=
  Eval vm_compute in class_setup self X y (Counter y) 1%Z rng 0%Z entry.

Definition setup : cnn_setup :=
  Eval vm_compute in
    match setup_run.1 with
    | Ok su => su
    | Raise _ =>
        {| setup_random_state := rng; setup_idx_maj := []; setup_S_x := [];
           setup_S_y := [];
           setup_locals := {| idx_maj_sample := []; C_indices := [];
                              good_classif_label := [] |} |}
    end.

End skip.

(** C1 fails on the code.  In the run [skip] the seed is the candidate at
    position 0 of the queue, row 2 of the data, and [good_classif_label]
    starts as [2], the row.  The turns for the positions 0 and 1 classify
    their candidates (the seed among them, whose position is not
    skipped) and change nothing.  The candidate at position 2 is then
    skipped, because its position equals the row of the seed, although
    it is no seed and the queue has not been classified; the estimator
    in force gives it the label 1, not its label 0.  The turn for the
    class selects row 2 only, where the position-based tracking of the
    specification selects the rows 2 and 4, and the selection of
    [_fit_resample] is [2; 0; 1]. *)
Theorem skip_test_reads_rows_as_positions :
  (randint (RandomState 0%Z) 5 1).1 = [0] ∧
  idx_maj_sample (setup_locals skip.setup) = [2] ∧
  good_classif_label (setup_locals skip.setup) = [2] ∧
  class_loop skip.X skip.y skip.setup (setup_locals skip.setup)
    (take 2 (enumerate (zip (setup_S_x skip.setup) (setup_S_y skip.setup))))
    skip.setup_run.2
  = (Ok (setup_locals skip.setup), skip.setup_run.2) ∧
  skip_test 0 (setup_locals skip.setup) = false ∧
  skip_test 2 (setup_locals skip.setup) = true ∧
  zip (setup_S_x skip.setup) (setup_S_y skip.setup) !! 2 = Some (9, 0)%Z ∧
  estimator_predict [9%Z] skip.setup_run.2 = (Ok [1%Z], skip.setup_run.2) ∧
  (class_step skip.self skip.X skip.y (Counter skip.y) 1%Z ([], skip.rng)
              0%Z skip.entry).1
  = Ok ([2], setup_random_state skip.setup) ∧
  (class_step_by_position skip.self skip.X skip.y (Counter skip.y) 1%Z
                          ([], skip.rng) 0%Z skip.entry).1
  = Ok ([2; 4], setup_random_state skip.setup) ∧
  sample_indices_
    (_fit_resample (Weight:=Z) skip.self skip.X skip.y None demo.store0).2
  = Some [2; 0; 1].
Proof. split_and!; reflexivity. Qed.

(** ** Determinism *)

Section Determinism.
Context `{Classifier} `{RandomSource} {Weight : Type}.

(** Two stores hold the same generator for the configuration [seed]: the
    global one when [random_state] is [None], the instance when it is an
    instance, and nothing when it is an integer, as the generator is then
    made from the integer. *)
Definition same_generator (seed : random_state_t) (σ1 σ2 : store) : Prop :=
  match seed with
  | RSNone => np_random σ1 = np_random σ2
  | RSInt _ => True
  | RSInstance => rs_instance σ1 = rs_instance σ2
  end.

(** The reference that [check_random_state] answers for [seed]. *)
Definition ref_for (seed : random_state_t) (rng : rng_ref) : Prop :=
  match seed, rng with
  | RSNone, RefGlobal | RSInstance, RefInstance | RSInt _, RefFresh _ => True
  | _, _ => False
  end.

(** What the loops read of the store: the estimator and the generator. *)
Definition agree (seed : random_state_t) (σ1 σ2 : store) : Prop :=
  estimator_ σ1 = estimator_ σ2 ∧ same_generator seed σ1 σ2.

(** From stores related by [R] the computation has one result, and when
    it returns the stores it leaves are related by [R']. *)
Definition det {A} (R R' : relation store) (m : M A) : Prop :=
  ∀ σ1 σ2, R σ1 σ2 →
    (m σ1).1 = (m σ2).1 ∧ (is_ok (m σ1).1 = true → R' (m σ1).2 (m σ2).2).

Lemma det_mret {A} (R : relation store) (a : A) : det R R (mret a).
Proof. by intros σ1 σ2 HR. Qed.

Lemma det_lift {A} (R : relation store) (r : result A) : det R R (lift r).
Proof. by intros σ1 σ2 HR. Qed.

Lemma det_raise {A} (R R' : relation store) (e : exn) :
  det R R' (raise (A:=A) e).
Proof. by intros σ1 σ2 HR. Qed.

Lemma det_bind {A B} (R R' R'' : relation store) (m : M A) (f : A → M B) :
  det R R' m →
  (∀ a σ σ', m σ = (Ok a, σ') → det R' R'' (f a)) →
  det R R'' (m ≫= f).
Proof.
  intros Hm Hf σ1 σ2 HR. destruct (Hm σ1 σ2 HR) as [Heq HR'].
  unfold mbind, M_bind.
  destruct (m σ1) as [[a|e] s1] eqn:H1, (m σ2) as [[a'|e'] s2] eqn:H2;
    simpl in *; try done.
  - injection Heq as <-. by eapply Hf; [|apply HR'].
  - by injection Heq as <-.
Qed.

Lemma det_foldM {A B} (R : relation store) (P : B → Prop)
    (f : B → A → M B) (l : list A) (b : B) :
  (∀ b a, P b → det R R (f b a)) →
  (∀ b a σ b' σ', P b → f b a σ = (Ok b', σ') → P b') →
  P b → det R R (foldM f b l).
Proof.
  intros Hf HP. revert b. induction l as [|a l IH]; intros b Hb; simpl.
  - apply det_mret.
  - eapply det_bind; [by apply Hf|]. intros b' σ σ' Hb'.
    apply IH. by eapply HP.
Qed.

Lemma det_estimator_fit seed C_x C_y :
  det (agree seed) (agree seed) (estimator_fit C_x C_y).
Proof.
  intros σ1 σ2 [He Hg]. unfold estimator_fit. rewrite <-He.
  destruct (estimator_ σ1) as [e|]; [|done].
  destruct (fit (est_params e) C_x C_y) as [m|err]; [|done].
  simpl. split; [done|]. intros _. split; [done|]. by destruct seed.
Qed.

Lemma det_estimator_predict seed rows :
  det (agree seed) (agree seed) (estimator_predict rows).
Proof.
  intros σ1 σ2 [He Hg]. unfold estimator_predict. rewrite <-He.
  destruct (estimator_ σ1) as [e|] eqn:He1; [|done].
  destruct (est_model e) as [m|]; [|done].
  simpl. split; [done|]. intros _. split; [congruence|done].
Qed.

Lemma det_randint_at seed rng high size :
  ref_for seed rng →
  det (agree seed) (agree seed) (randint_at rng high size).
Proof.
  intros Href σ1 σ2 [He Hg]. unfold randint_at.
  case_bool_decide; [done|].
  destruct seed, rng; try done; simpl in *.
  - rewrite <-Hg. by destruct (randint (np_random σ1) high size).
  - by destruct (randint s high size).
  - rewrite <-Hg. by destruct (randint (rs_instance σ1) high size).
Qed.

Lemma randint_at_ref_for seed rng high size σ draws rng' σ' :
  ref_for seed rng →
  randint_at rng high size σ = (Ok (draws, rng'), σ') → ref_for seed rng'.
Proof.
  unfold randint_at. case_bool_decide; [done|].
  destruct seed, rng; try done; simpl;
    destruct (randint _ high size); by intros _ [= _ <- _].
Qed.

Lemma det_loop_body seed X y idx_maj S_x S_y st cand :
  det (agree seed) (agree seed) (loop_body X y idx_maj S_x S_y st cand).
Proof.
  unfold loop_body. destruct cand as [idx_sam [x_sam y_sam]].
  destruct (skip_test idx_sam st); [apply det_mret|].
  eapply det_bind; [apply det_estimator_predict|]. intros pred_y _ _ _.
  eapply det_bind; [apply det_lift|]. intros [] _ _ _; [|apply det_mret].
  eapply det_bind; [apply det_lift|]. intros g _ _ _.
  eapply det_bind; [apply det_lift|]. intros C_x _ _ _.
  eapply det_bind; [apply det_lift|]. intros C_y _ _ _.
  eapply det_bind; [apply det_estimator_fit|]. intros [] _ _ _.
  eapply det_bind; [apply det_estimator_predict|]. intros pred_S_y _ _ _.
  apply det_mret.
Qed.

Lemma det_class_setup seed self X y target_stats class_minority rng c :
  ref_for seed rng →
  det (agree seed) (agree seed)
      (class_setup self X y target_stats class_minority rng c).
Proof.
  intros Href. unfold class_setup.
  eapply det_bind; [by apply det_randint_at|]. intros [draws rng'] _ _ _.
  eapply det_bind; [apply det_lift|]. intros seeds _ _ _.
  eapply det_bind; [apply det_lift|]. intros C_x _ _ _.
  eapply det_bind; [apply det_lift|]. intros C_y _ _ _.
  eapply det_bind; [apply det_lift|]. intros S_x _ _ _.
  eapply det_bind; [apply det_lift|]. intros S_y _ _ _.
  eapply det_bind; [apply det_estimator_fit|]. intros [] _ _ _.
  apply det_mret.
Qed.

Lemma det_class_step seed self X y target_stats class_minority idx rng c :
  ref_for seed rng →
  det (agree seed) (agree seed)
      (class_step self X y target_stats class_minority (idx, rng) c).
Proof.
  intros Href. unfold class_step. case_bool_decide; [|apply det_mret].
  eapply det_bind; [by apply det_class_setup|]. intros su _ _ _.
  eapply det_bind; [|intros; apply det_mret].
  unfold class_loop.
  apply (det_foldM _ (λ _, True)); [|done..].
  intros. apply det_loop_body.
Qed.

Lemma class_step_ref_for seed self X y target_stats class_minority idx rng c
    σ idx' rng' σ' :
  ref_for seed rng →
  class_step self X y target_stats class_minority (idx, rng) c σ
  = (Ok (idx', rng'), σ') →
  ref_for seed rng'.
Proof.
  intros Href (seg & -> & Hseg)%class_step_Ok.
  case_bool_decide.
  - destruct Hseg as (su & σ1 & st & Hsu%class_setup_Ok & _ & _ & ->).
    destruct Hsu. simpl. by eapply randint_at_ref_for.
  - by destruct Hseg as (_ & -> & _).
Qed.

Lemma det_validate_estimator seed self :
  det (same_generator seed) (agree seed) (_validate_estimator self).
Proof.
  intros σ1 σ2 Hg. unfold _validate_estimator.
  destruct (n_neighbors self); simpl; (split; [done|]); intros Hok;
    try done; (split; [done|]); by destruct seed.
Qed.

Lemma check_random_state_ref_for seed σ rng σ' :
  check_random_state seed σ = (Ok rng, σ') → ref_for seed rng.
Proof.
  unfold check_random_state. destruct seed; simpl.
  - by intros [= <- _].
  - case_bool_decide; [by intros [= <- _]|done].
  - by intros [= <- _].
Qed.

Lemma det_check_random_state R seed : det R R (check_random_state seed).
Proof.
  unfold check_random_state. destruct seed; try apply det_mret.
  case_bool_decide; [apply det_mret|apply det_raise].
Qed.

(** C8.  Two calls of [_fit_resample] on one configuration and one
    [X], [y] and [sample_weight], from two stores whatever the
    attributes [estimator_] and [sample_indices_] hold, with the
    generator that [random_state] stands for in one state (no condition
    for an integer seed), have one result; and when they return they
    leave one selection in [sample_indices_] and one estimator. *)
Theorem determinism (self : CondensedNearestNeighbour)
    (X : list Row) (y : list Z) (sample_weight : option (list Weight))
    (σ1 σ2 : store) :
  same_generator (random_state self) σ1 σ2 →
  (_fit_resample self X y sample_weight σ1).1
  = (_fit_resample self X y sample_weight σ2).1 ∧
  (is_ok (_fit_resample self X y sample_weight σ1).1 = true →
   sample_indices_ (_fit_resample self X y sample_weight σ1).2
   = sample_indices_ (_fit_resample self X y sample_weight σ2).2 ∧
   estimator_ (_fit_resample self X y sample_weight σ1).2
   = estimator_ (_fit_resample self X y sample_weight σ2).2).
Proof.
  set (seed := random_state self).
  set (R' := λ σ1 σ2 : store,
         sample_indices_ σ1 = sample_indices_ σ2 ∧
         estimator_ σ1 = estimator_ σ2).
  cut (det (same_generator seed) R' (_fit_resample self X y sample_weight)).
  { intros Hdet Hg. by apply Hdet. }
  unfold _fit_resample.
  eapply det_bind; [apply det_validate_estimator|]. intros [] _ _ _.
  eapply det_bind; [apply det_check_random_state|]. intros rng σ σ' Hrng.
  apply check_random_state_ref_for in Hrng.
  eapply det_bind; [apply det_lift|]. intros class_minority _ _ _.
  eapply (det_bind _ (agree seed)).
  { apply (det_foldM _ (λ acc, ref_for seed acc.2)); [| |done].
    - intros [idx r] c Hr. by apply det_class_step.
    - intros [idx r] c σa [idx' r'] σb Hr Hstep.
      by eapply class_step_ref_for. }
  intros [idx_under rng'] _ _ _.
  eapply (det_bind _ R').
  { intros σa σb [He _]. by split. }
  intros [] _ _ _.
  destruct sample_weight as [w|].
  - eapply det_bind; [apply det_lift|]. intros sw_res _ _ _.
    eapply det_bind; [apply det_lift|]. intros X_res _ _ _.
    eapply det_bind; [apply det_lift|]. intros y_res _ _ _.
    apply det_mret.
  - eapply det_bind; [apply det_lift|]. intros X_res _ _ _.
    eapply det_bind; [apply det_lift|]. intros y_res _ _ _.
    apply det_mret.
Qed.

End Determinism.

Lemma determinism_witness :
  let σ2 : store :=
    {| estimator_ := Some {| est_params := (5%Z, None);
                             est_model := Some [(7, 7)%Z] |};
       sample_indices_ := Some [9; 9];
       np_random := 77%Z;
       rs_instance := 5%Z |} in
  (_fit_resample scenario.self scenario.X scenario.y
                 (Some scenario.weights) demo.store0).1
  = (_fit_resample scenario.self scenario.X scenario.y
                   (Some scenario.weights) σ2).1 ∧
  (is_ok (_fit_resample scenario.self scenario.X scenario.y
                        (Some scenario.weights) demo.store0).1 = true →
   sample_indices_ (_fit_resample scenario.self scenario.X scenario.y
                                  (Some scenario.weights) demo.store0).2
   = sample_indices_ (_fit_resample scenario.self scenario.X scenario.y
                                    (Some scenario.weights) σ2).2 ∧
   estimator_ (_fit_resample scenario.self scenario.X scenario.y
                             (Some scenario.weights) demo.store0).2
   = estimator_ (_fit_resample scenario.self scenario.X scenario.y
                               (Some scenario.weights) σ2).2).
Proof.
  intros σ2.
  apply (determinism scenario.self scenario.X scenario.y
           (Some scenario.weights) demo.store0 σ2).
  exact I.
Defined.

(** Without a seed the selection follows the global generator: two
    states of it give two selections. *)
Example unseeded_runs_differ :
  let self := {| sampling_strategy_ := sampling_strategy_ scenario.self;
                 random_state := RSNone; n_neighbors := NNone;
                 n_seeds_S := 1; n_jobs := None |} in
  sample_indices_
    (_fit_resample (Weight:=Z) self scenario.X scenario.y None
       {| estimator_ := None; sample_indices_ := None;
          np_random := 0%Z; rs_instance := 0%Z |}).2 = Some [0; 5; 6; 7] ∧
  sample_indices_
    (_fit_resample (Weight:=Z) self scenario.X scenario.y None
       {| estimator_ := None; sample_indices_ := None;
          np_random := 2%Z; rs_instance := 0%Z |}).2 = Some [2; 5; 6; 7].
Proof. split; reflexivity. Qed.

(** ** The calls that return *)

Section Returns.
Context `{Classifier} `{RandomSource} {Weight : Type}.

Lemma foldM_returns {A B} (I : B → store → Prop) (f : B → A → M B)
    (l : list A) (b : B) σ :
  I b σ →
  (∀ a b1 σ1, a ∈ l → I b1 σ1 →
     ∃ b2 σ2, f b1 a σ1 = (Ok b2, σ2) ∧ I b2 σ2) →
  ∃ b' σ', foldM f b l σ = (Ok b', σ') ∧ I b' σ'.
Proof.
  revert b σ. induction l as [|a l IH]; intros b σ Hb Hf; simpl.
  - by exists b, σ.
  - destruct (Hf a b σ) as (b1 & σ1 & Ha & Hb1); [left|done|].
    destruct (IH b1 σ1 Hb1) as (b' & σ' & Hfold & Hb').
    { intros a' b2 σ2 Ha'. apply Hf. by right. }
    exists b', σ'. split; [|done]. apply bind_Ok. by exists b1, σ1.
Qed.

(** The classifier with the parameters [p] answers: fitted on one
    label for each of one or more rows it gives a model, and the model
    predicts whatever rows it is shown. *)
Definition answers (p : Params) : Prop :=
  ∀ C_x C_y, C_x ≠ [] → length C_y = length C_x →
    ∃ m, fit p C_x C_y = Ok m ∧ ∀ rows, ∃ labels, predict m rows = Ok labels.

(** The estimator in the store has the parameters [p] and a model that
    predicts. *)
Definition ready (p : Params) (σ : store) : Prop :=
  ∃ e m, estimator_ σ = Some e ∧ est_params e = p ∧ est_model e = Some m ∧
         ∀ rows, ∃ labels, predict m rows = Ok labels.

Lemma take_returns_below {A} (arr : list A) (y : list Z)
    (indices : list nat) :
  length arr = length y → Forall (λ i, i < length y) indices →
  ∃ r, np.take arr indices = Ok r ∧ length r = length indices.
Proof.
  intros Hlen Hidx. destruct (take_is_ok arr indices) as [r Hr].
  { by rewrite Hlen. }
  exists r. split; [done|]. by eapply take_length.
Qed.

Lemma class_indices_below (y : list Z) (c : Z) :
  Forall (λ i, i < length y) (np.flatnonzero (np.eq_scalar y c)).
Proof.
  apply Forall_forall. intros i Hi%class_indices_spec.
  by eapply lookup_lt_Some.
Qed.

Lemma loop_body_returns p X y idx_maj S_x S_y st idx_sam x_sam y_sam σ :
  answers p → length X = length y →
  Forall (λ i, i < length y) idx_maj → idx_sam < length idx_maj →
  ready p σ → C_indices st ≠ [] → Forall (λ i, i < length y) (C_indices st) →
  ∃ st' σ',
    loop_body X y idx_maj S_x S_y st (idx_sam, (x_sam, y_sam)) σ
    = (Ok st', σ') ∧
    ready p σ' ∧ C_indices st' ≠ [] ∧
    Forall (λ i, i < length y) (C_indices st').
Proof.
  intros Hanswers HX Hmaj Hsam (e & m & He & Hp & Hm & Hpredict) HC HCy.
  subst p.
  destruct (skip_test idx_sam st) eqn:Hskip.
  { exists st, σ. split; [by apply loop_body_turn, turn_skipped|].
    split_and!; [by exists e, m|done..]. }
  destruct (Hpredict [x_sam]) as [pred_y Hpred].
  pose proof (predict_length _ _ _ Hpred) as Hone.
  destruct pred_y as [|l [|??]]; try done.
  assert (Hpred' : estimator_predict [x_sam] σ = (Ok [l], σ)).
  { apply estimator_predict_Ok. split; [done|]. by exists e, m. }
  destruct (decide (l = y_sam)) as [->|Hl].
  { exists st, σ. split; [by apply loop_body_turn, turn_agreed|].
    split_and!; [by exists e, m|done..]. }
  destruct (lookup_lt_is_Some_2 idx_maj idx_sam Hsam) as [g Hg].
  assert (Hg' : g < length y).
  { rewrite Forall_forall in Hmaj. apply Hmaj.
    by eapply list_elem_of_lookup_2. }
  assert (HCg : Forall (λ i, i < length y) (C_indices st ++ [g])).
  { apply Forall_app. split; [done|]. by apply Forall_singleton. }
  destruct (take_returns_below X y _ HX HCg) as (C_x & HCx & HCxl).
  destruct (take_returns_below y y _ eq_refl HCg) as (C_y & HCy' & HCyl).
  destruct (Hanswers C_x C_y) as (m' & Hfit & Hpredict').
  { intros ->. rewrite length_app in HCxl. simpl in HCxl. lia. }
  { congruence. }
  destruct (Hpredict' S_x) as [pred_S_y HpS].
  eexists _, _. split.
  { apply loop_body_turn. by eapply turn_retrained. }
  simpl. split_and!; [|by destruct (C_indices st)|done].
  eexists _, m'. by split_and!.
Qed.

(** The estimator in the store has the parameters [p]. *)
Definition has_params (p : Params) (σ : store) : Prop :=
  ∃ e, estimator_ σ = Some e ∧ est_params e = p.

Lemma randint_at_returns rng high size σ :
  high ≠ 0 →
  ∃ rng' σ0,
    randint_at rng high size σ
    = (Ok ((randint (rng_state rng σ) high size).1, rng'), σ0) ∧
    estimator_ σ0 = estimator_ σ.
Proof.
  intros Hhigh. unfold randint_at. rewrite bool_decide_eq_false_2 by done.
  destruct rng as [| |s]; simpl; destruct (randint _ high size);
    by eexists _, _.
Qed.

Lemma class_step_returns p self X y class_minority idx rng c σ :
  answers p → length X = length y →
  class_minority ∈ y → c ∈ y → has_params p σ →
  ∃ idx' rng' σ',
    class_step self X y (Counter y) class_minority (idx, rng) c σ
    = (Ok (idx', rng'), σ') ∧ has_params p σ'.
Proof.
  intros Hanswers HX Hminority Hc (e & He & Hp).
  destruct (decide (c ∈ dom (sampling_strategy_ self))) as [Htarget|Hkeep].
  2:{ eexists _, _, σ. split; [|by exists e].
      apply class_step_Ok. eexists. split; [done|].
      by rewrite bool_decide_eq_false_2. }
  set (idx_maj := np.flatnonzero (np.eq_scalar y c)).
  set (minority := np.flatnonzero (np.eq_scalar y class_minority)).
  assert (Hmaj : Forall (λ i, i < length y) idx_maj)
    by apply class_indices_below.
  assert (Hhigh : counter_get (Counter y) c ≠ 0).
  { rewrite class_count. apply list_elem_of_lookup in Hc as [i Hi].
    apply class_indices_spec in Hi. fold idx_maj in Hi |- *.
    destruct idx_maj; [by apply elem_of_nil in Hi|done]. }
  destruct (randint_at_returns rng _ (n_seeds_S self) σ Hhigh)
    as (rng' & σ0 & Hdraw & He0).
  set (draws := (randint _ _ _).1) in Hdraw.
  assert (Hrange : Forall (λ d, d < length idx_maj) draws).
  { unfold draws, idx_maj. rewrite <-class_count.
    apply randint_range. lia. }
  destruct (take_is_ok idx_maj draws Hrange) as [seeds Hseeds].
  assert (Hseeds' : Forall (λ i, i < length y) seeds).
  { apply Forall_forall. intros i Hi. rewrite Forall_forall in Hmaj.
    apply Hmaj. by eapply take_elem_of. }
  assert (HC : Forall (λ i, i < length y) (minority ++ seeds)).
  { apply Forall_app. split; [apply class_indices_below|done]. }
  assert (HCne : minority ++ seeds ≠ []).
  { apply list_elem_of_lookup in Hminority as [i Hi].
    apply class_indices_spec in Hi. fold minority in Hi.
    destruct minority; [by apply elem_of_nil in Hi|done]. }
  destruct (take_returns_below X y _ HX HC) as (C_x & HCx & HCxl).
  destruct (take_returns_below y y _ eq_refl HC) as (C_y & HCy & HCyl).
  destruct (take_returns_below X y _ HX Hmaj) as (S_x & HSx & HSxl).
  destruct (take_returns_below y y _ eq_refl Hmaj) as (S_y & HSy & HSyl).
  destruct (Hanswers C_x C_y) as (m & Hfit & Hpredict).
  { intros ->. destruct (minority ++ seeds); done. }
  { congruence. }
  rewrite <-Hp in Hfit. rewrite <-He0 in He.
  pose proof (setup_intro self X y (Counter y) class_minority rng c σ
                draws rng' σ0 seeds C_x C_y S_x S_y e m
                Hdraw Hseeds HCx HCy HSx HSy He Hfit) as Hsu.
  apply class_setup_Ok in Hsu.
  set (su := {| setup_random_state := rng' |}) in Hsu.
  destruct (foldM_returns
              (λ st σ, ready p σ ∧ C_indices st ≠ [] ∧
                       Forall (λ i, i < length y) (C_indices st))
              (loop_body X y idx_maj S_x S_y)
              (enumerate (zip S_x S_y)) (setup_locals su) (fitted σ0 e m))
    as (st & σ' & Hloop & (e' & m' & He' & Hp' & _) & _).
  { split_and!; [|done..]. eexists _, m. by split_and!. }
  { intros [idx_sam [x_sam y_sam]] st1 σ1 Hcand%enumerate_elem_of
      (Hready & HC1 & HC1y).
    apply lookup_lt_Some in Hcand.
    rewrite length_zip_with in Hcand.
    eapply loop_body_returns; [done..| |done|done|done].
    lia. }
  exists (idx ++ idx_maj_sample st), rng', σ'. split; [|by exists e'].
  apply class_step_Ok. eexists. split; [done|].
  rewrite bool_decide_eq_true_2 by done. by exists su, (fitted σ0 e m), st.
Qed.

(** X10.  [_fit_resample] returns on every well-formed call: [n_neighbors] is
    [None], an integer or a classifier instance, an integer seed is one
    that [RandomState] takes, [y] is not empty, [X] and [sample_weight]
    have one entry for each label, and the classifier that
    [_validate_estimator] makes answers. *)
Theorem fit_resample_returns (self : CondensedNearestNeighbour)
    (X : list Row) (y : list Z) (sample_weight : option (list Weight))
    (σ : store) :
  (∀ type_name, n_neighbors self ≠ NOther type_name) →
  (∀ seed, random_state self = RSInt seed → (0 ≤ seed < 2 ^ 32)%Z) →
  y ≠ [] →
  length X = length y →
  (∀ w, sample_weight = Some w → length w = length y) →
  (∀ σ0 e, _validate_estimator self σ = (Ok (), σ0) →
           estimator_ σ0 = Some e → answers (est_params e)) →
  ∃ (out : resampled (Weight:=Weight)) σ',
    _fit_resample self X y sample_weight σ = (Ok out, σ').
Proof.
  intros Hn Hseed Hy HX Hw Hanswers.
  assert (∃ σ0 e, _validate_estimator self σ = (Ok (), σ0) ∧
                  estimator_ σ0 = Some e) as (σ0 & e & Hval & He).
  { unfold _validate_estimator.
    destruct (n_neighbors self) as [|k|e0|ty] eqn:Hnn;
      [by eexists _, _..|by destruct (Hn ty)]. }
  specialize (Hanswers σ0 e Hval He).
  assert (∃ rng, check_random_state (random_state self) σ0 = (Ok rng, σ0))
    as [rng Hrng].
  { unfold check_random_state.
    destruct (random_state self) as [|seed|] eqn:Hrs; [by eexists| |by eexists].
    rewrite bool_decide_eq_true_2 by by apply Hseed. by eexists. }
  destruct (min_key_Counter_is_ok y Hy) as [m Hmin].
  pose proof (min_key_Counter_spec y m Hmin) as [Hm _].
  destruct (foldM_returns
              (λ _ σ, has_params (est_params e) σ)
              (class_step self X y (Counter y) m)
              (np.unique Z.le y) ([], rng) σ0)
    as ([idx rng'] & σ1 & Hfold & _).
  { by exists e. }
  { intros c [idx1 rng1] σa Hc%unique_elem_of Hpa.
    destruct (class_step_returns (est_params e) self X y m idx1 rng1 c σa)
      as (idx' & rng2 & σb & Hstep & Hpb); [done..|].
    by exists (idx', rng2), σb. }
  apply class_loop_run in Hfold as (segs & -> & Hrun). simpl.
  pose proof (class_run_segments _ _ _ _ _ _ _ _ _ _ _ Hrun) as Hsegs.
  assert (Hidx : Forall (λ i, i < length y) (concat segs)).
  { apply Forall_concat. clear -Hsegs.
    induction Hsegs as [|c seg classes segs [Hseg _] _ IH]; constructor;
      [|done].
    eapply Forall_impl; [done|]. intros i Hi. simpl in *.
    by eapply lookup_lt_Some. }
  destruct (take_returns_below X y _ HX Hidx) as (X_res & HXr & _).
  destruct (take_returns_below y y _ eq_refl Hidx) as (y_res & Hyr & _).
  destruct sample_weight as [w|].
  - destruct (take_returns_below w y _ (Hw w eq_refl) Hidx)
      as (sw_res & Hwr & _).
    eexists _, _. apply fit_resample_Ok.
    econstructor; [done..|]. by constructor.
  - eexists _, _. apply fit_resample_Ok.
    econstructor; [done..|]. by constructor.
Qed.

End Returns.

Lemma nn1_answers (n_jobs : option Z) :
  answers (KNeighborsClassifier 1 n_jobs).
Proof.
  intros C_x C_y HC Hlen. simpl. unfold train. simpl.
  destruct C_x as [|x C_x]; [done|]. destruct C_y as [|l C_y]; [done|].
  eexists. split; [done|]. intros rows. simpl. by eexists.
Qed.

Lemma fit_resample_returns_witness :
  ∃ (out : resampled (Weight:=Z)) σ',
    _fit_resample scenario.self scenario.X scenario.y
                  (Some scenario.weights) demo.store0 = (Ok out, σ').
Proof.
  apply fit_resample_returns.
  - done.
  - intros seed [= <-]. done.
  - done.
  - done.
  - by intros w [= <-].
  - intros σ0 e [= <-] [= <-]. apply nn1_answers.
Defined.

(** * Further properties of [_fit_resample] *)

(** ** The growth of the selection *)

Section Growth.
Context `{Classifier} `{RandomSource} {Weight : Type}.

(** The turn of a class inside a run, and the entries of the selection
    with the label of the class. *)
Lemma class_run_lookup self X y target_stats class_minority rng σ classes
    segs rng' σ' k c seg :
  class_run self X y target_stats class_minority rng σ classes segs rng' σ' →
  classes !! k = Some c → segs !! k = Some seg →
  ∃ rng1 σ1 rng2 σ2,
    class_step self X y target_stats class_minority ([], rng1) c σ1
    = (Ok (seg, rng2), σ2).
Proof.
  intros Hrun. revert k.
  induction Hrun as [|ra σa c' classes seg' segs ra1 σa1 ra2 σa2 Hstep _ IH];
    intros k Hk Hseg; [done|].
  destruct k as [|k]; simpl in *; [|by eapply IH].
  injection Hk as ->. injection Hseg as ->. by eexists _, _, _, _.
Qed.

Lemma resample_run_segment self X y sample_weight σ
    (out : resampled (Weight:=Weight)) σ' c :
  _fit_resample self X y sample_weight σ = (Ok out, σ') → c ∈ y →
  ∃ idx_under class_minority rng1 σ1 rng2 σ2,
    sample_indices_ σ' = Some idx_under ∧
    min_key (Counter y) = Ok class_minority ∧
    class_step self X y (Counter y) class_minority ([], rng1) c σ1
    = (Ok (emitted_for y idx_under c, rng2), σ2).
Proof.
  intros Hrun%fit_resample_Ok Hc.
  destruct Hrun as [σ0 r m segs r' σ1 out' Hval Hrs Hmin Hrun Hout].
  pose proof (class_run_segments _ _ _ _ _ _ _ _ _ _ _ Hrun) as Hsegs.
  apply (unique_elem_of Z.le) in Hc as [k Hk]%list_elem_of_lookup.
  destruct (Forall2_lookup_l _ _ _ _ _ Hsegs Hk) as (seg & Hseg & _).
  assert (Hemit : emitted_for y (concat segs) c = seg).
  { eapply emitted_for_segment; [apply (unique_NoDup Z.le)| |done..].
    eapply Forall2_impl; [done|]. by intros ?? [? _]. }
  destruct (class_run_lookup _ _ _ _ _ _ _ _ _ _ _ _ _ _ Hrun Hk Hseg)
    as (rng1 & σa & rng2 & σb & Hstep).
  exists (concat segs), m, rng1, σa, rng2, σb. by rewrite Hemit.
Qed.

Lemma sublist_StronglySorted {A} (R : relation A) (l1 l2 : list A) :
  l1 `sublist_of` l2 → StronglySorted R l2 → StronglySorted R l1.
Proof.
  induction 1 as [|x l1 l2 Hsub IH|x l1 l2 Hsub IH];
    rewrite ?StronglySorted_cons; [done| |naive_solver].
  intros [Hx Hl2]. split; [|by apply IH].
  rewrite Forall_forall in Hx |- *. intros x' Hx'. apply Hx.
  by eapply elem_of_sublist.
Qed.

(** X1.  Between the turns of the loop over the candidates the selection
    [idx_maj_sample] and the set [C_indices] only grow at their end:
    what they hold after [k] turns is a prefix of what they hold after
    [k'] turns, for [k ≤ k']. *)
Theorem selection_only_grows (X : list Row) (y : list Z) (su : cnn_setup)
    (st0 : cnn_locals) (cands : list (nat * (Row * Z))) (σ : store)
    (k k' : nat) (st st' : cnn_locals) (σk σk' : store) :
  k ≤ k' →
  class_loop X y su st0 (take k cands) σ = (Ok st, σk) →
  class_loop X y su st0 (take k' cands) σ = (Ok st', σk') →
  idx_maj_sample st `prefix_of` idx_maj_sample st' ∧
  C_indices st `prefix_of` C_indices st'.
Proof.
  intros Hk Hst Hst'.
  replace (take k' cands) with (take k cands ++ drop k (take k' cands))
    in Hst'.
  2:{ rewrite <-(take_drop k (take k' cands)) at 2.
      by rewrite take_take, Nat.min_l. }
  unfold class_loop in *.
  apply foldM_app_Ok in Hst' as (st1 & σ1 & Hst1 & Hrest).
  rewrite Hst in Hst1. injection Hst1 as <- <-.
  eapply (foldM_invariant
            (λ st' _, idx_maj_sample st `prefix_of` idx_maj_sample st' ∧
                      C_indices st `prefix_of` C_indices st'));
    [done|done|].
  intros st1 [idx_sam [x_sam y_sam]] σ1 st2 σ2 _ [Hsel HC]
    Hturn%loop_body_turn.
  destruct Hturn; [done..|]. simpl. split; by apply prefix_app_r.
Qed.

(** The rows that the loop adds to the selection, from the candidate at
    position [j] on, are rows of the queue from position [j] on, in the
    order of the queue and each at most once. *)
Lemma loop_added_from X y idx_maj S_x S_y cs j st σ st' σ' :
  foldM (loop_body X y idx_maj S_x S_y) st (zip (seq j (length cs)) cs) σ
  = (Ok st', σ') →
  ∃ added, idx_maj_sample st' = idx_maj_sample st ++ added ∧
           added `sublist_of` drop j idx_maj.
Proof.
  revert j st σ. induction cs as [|[x_sam y_sam] cs IH]; intros j st σ; simpl.
  - intros [-> ->]%mret_Ok. exists []. rewrite app_nil_r.
    split; [done|apply sublist_nil_l].
  - intros (st1 & σ1 & Hturn%loop_body_turn & Hrest)%bind_Ok.
    apply IH in Hrest as (added & Hsel & Hsub).
    assert (Hdrop : drop (S j) idx_maj `sublist_of` drop j idx_maj).
    { replace (S j) with (j + 1) by lia. rewrite <-drop_drop.
      apply sublist_drop. }
    destruct Hturn as [| |p g C_x C_y e m pred_S_y ? ? ? Hg].
    + exists added. split; [done|]. by etrans.
    + exists added. split; [done|]. by etrans.
    + exists (g :: added). simpl in Hsel. rewrite Hsel, <-app_assoc.
      split; [done|]. rewrite (drop_S _ _ _ Hg). by apply sublist_skip.
Qed.

(** The entries of the selection for a targeted class: the seeds, then a
    sublist of the index set of the class. *)
Lemma targeted_segment_shape self X y sample_weight σ
    (out : resampled (Weight:=Weight)) σ' idx_under c :
  _fit_resample self X y sample_weight σ = (Ok out, σ') →
  sample_indices_ σ' = Some idx_under →
  c ∈ y → c ∈ dom (sampling_strategy_ self) →
  ∃ seeds added,
    emitted_for y idx_under c = seeds ++ added ∧
    length seeds = n_seeds_S self ∧
    added `sublist_of` np.flatnonzero (np.eq_scalar y c).
Proof.
  intros Hrun Hsel Hc Htarget.
  destruct (resample_run_segment _ _ _ _ _ _ _ c Hrun Hc)
    as (idx & m & rng1 & σ1 & rng2 & σ2 & Hidx & _ & Hstep).
  rewrite Hsel in Hidx. injection Hidx as <-.
  apply class_step_Ok in Hstep as (seg & Hseg & Hbranch). simpl in Hseg.
  rewrite bool_decide_eq_true_2 in Hbranch by done.
  destruct Hbranch as (su & σa & st & Hsu%class_setup_Ok & Hloop & -> & _).
  destruct Hsu as [draws r' σ0 seeds C_x0 C_y0 S_x S_y e0 m0
                     Hdraw Hseeds HCx0 HCy0 HSx HSy He0 Hfit0].
  unfold class_loop, enumerate in Hloop. simpl in Hloop.
  apply loop_added_from in Hloop as (added & Hadd & Hsub). simpl in *.
  rewrite drop_0 in Hsub.
  exists seeds, added. rewrite Hseg, Hadd. split_and!; [done| |done].
  apply take_length in Hseeds. rewrite Hseeds.
  apply randint_at_Ok in Hdraw as (_ & -> & _). apply randint_length.
Qed.

Lemma sublist_class_indices_length (y : list Z) (c : Z) (added : list nat) :
  added `sublist_of` np.flatnonzero (np.eq_scalar y c) →
  length added ≤ count_of c y.
Proof.
  intros Hsub%sublist_length. unfold np.flatnonzero in Hsub.
  by rewrite flatnonzero_from_length in Hsub.
Qed.

(** X2.  When [_fit_resample] returns, then for every targeted class [c]
    of [y] the entries of the selection with label [c] are [n_seeds_S]
    seeds followed by rows [added] that form a sublist of the index set
    of [c]: they come in strictly ascending order, none twice.  So the
    class keeps at least [n_seeds_S] and at most [n_seeds_S] plus its
    number of rows entries, and only a seed can occur twice among
    them. *)
Theorem selection_size_bounds (self : CondensedNearestNeighbour)
    (X : list Row) (y : list Z) (sample_weight : option (list Weight))
    (σ σ' : store) (out : resampled (Weight:=Weight)) :
  _fit_resample self X y sample_weight σ = (Ok out, σ') →
  ∃ idx_under : list nat,
    sample_indices_ σ' = Some idx_under ∧
    ∀ c, c ∈ y → c ∈ dom (sampling_strategy_ self) →
      ∃ seeds added,
        emitted_for y idx_under c = seeds ++ added ∧
        length seeds = n_seeds_S self ∧
        added `sublist_of` np.flatnonzero (np.eq_scalar y c) ∧
        StronglySorted lt added ∧
        n_seeds_S self ≤ length (emitted_for y idx_under c)
          ≤ n_seeds_S self + count_of c y.
Proof.
  intros Hrun.
  pose proof Hrun as Hrun'%fit_resample_Ok.
  destruct Hrun' as [σr r0 mr segs r1 σs out' _ _ _ _ _].
  eexists. split; [done|]. intros c Hc Htarget.
  destruct (targeted_segment_shape _ _ _ _ _ _ _ _ c Hrun eq_refl Hc Htarget)
    as (seeds & added & Hemit & Hlen & Hsub).
  exists seeds, added. rewrite Hemit.
  split_and!; [done..| | |].
  - eapply sublist_StronglySorted; [done|apply flatnonzero_sorted].
  - rewrite length_app. lia.
  - rewrite length_app, Hlen.
    apply sublist_class_indices_length in Hsub. lia.
Qed.

End Growth.

Lemma selection_only_grows_witness :
  idx_maj_sample (setup_locals retrain.setup)
    `prefix_of` idx_maj_sample retrain.after_retrain ∧
  C_indices (setup_locals retrain.setup)
    `prefix_of` C_indices retrain.after_retrain.
Proof.
  apply (@selection_only_grows nn1.classifier lcg.source
           retrain.X retrain.y retrain.setup
           (setup_locals retrain.setup)
           (enumerate (zip (setup_S_x retrain.setup)
                           (setup_S_y retrain.setup)))
           retrain.setup_run.2 2 3
           (setup_locals retrain.setup) retrain.after_retrain
           retrain.setup_run.2 retrain.after_retrain_run.2).
  - lia.
  - reflexivity.
  - reflexivity.
Defined.

(** The run [retrain] as a whole. *)
Module retrain_run.

Definition run : result (resampled (Weight:=Z)) * store :=
  Eval vm_compute in
    _fit_resample retrain.self retrain.X retrain.y None demo.store0.

Definition out : resampled (Weight:=Z) :=
  Eval vm_compute in
    match run.1 with Ok o => o | Raise _ => Resampled2 [] [] end.

End retrain_run.

Lemma selection_size_bounds_witness :
  ∃ idx_under : list nat,
    sample_indices_ retrain_run.run.2 = Some idx_under ∧
    ∀ c, c ∈ retrain.y → c ∈ dom (sampling_strategy_ retrain.self) →
      ∃ seeds added,
        emitted_for retrain.y idx_under c = seeds ++ added ∧
        length seeds = n_seeds_S retrain.self ∧
        added `sublist_of` np.flatnonzero (np.eq_scalar retrain.y c) ∧
        StronglySorted lt added ∧
        n_seeds_S retrain.self ≤ length (emitted_for retrain.y idx_under c)
          ≤ n_seeds_S retrain.self + count_of c retrain.y.
Proof.
  apply (selection_size_bounds (Weight:=Z) retrain.self retrain.X retrain.y
           None demo.store0 retrain_run.run.2 retrain_run.out).
  reflexivity.
Defined.

(** ** The labels that are returned *)

(** The labels [y_res] of a result. *)
Definition resampled_y `{Classifier} {Weight : Type}
    (out : resampled (Weight:=Weight)) : list Z :=
  match out with
  | Resampled2 _ y_res | Resampled3 _ y_res _ => y_res
  end.

Section Labels.
Context `{Classifier} `{RandomSource} {Weight : Type}.

Lemma resampled_y_gathered X y idx_under sample_weight
    (out : resampled (Weight:=Weight)) :
  gathered X y idx_under sample_weight out →
  Forall2 (λ i l, y !! i = Some l) idx_under (resampled_y out).
Proof. intros []; by apply take_spec. Qed.

Lemma segment_labels_sorted (y : list Z) (classes : list Z)
    (segs : list (list nat)) (labels : list Z) :
  StronglySorted Z.lt classes →
  Forall2 (λ c seg, Forall (λ i, y !! i = Some c) seg) classes segs →
  Forall2 (λ i l, y !! i = Some l) (concat segs) labels →
  StronglySorted Z.le labels ∧ Forall (λ l, l ∈ classes) labels.
Proof.
  intros Hsorted Hsegs. revert labels.
  induction Hsegs as [|c seg classes segs Hseg Hsegs IH]; intros labels; simpl.
  - intros ->%Forall2_nil_inv_l. split; constructor.
  - intros (l1 & l2 & H1 & H2 & ->)%Forall2_app_inv_l.
    apply StronglySorted_cons in Hsorted as [Hc Hsorted].
    destruct (IH Hsorted l2 H2) as [Hl2 Hin2].
    assert (Hl1 : Forall (λ l, l = c) l1).
    { clear -Hseg H1. induction H1 as [|i l seg l1 Hi _ IH1]; [done|].
      apply Forall_cons in Hseg as [Hic Hseg].
      constructor; [congruence|by apply IH1]. }
    split.
    + apply StronglySorted_app_2; [|clear -Hl1|done].
      * intros x1 x2 Hx1 Hx2. rewrite Forall_forall in Hl1, Hin2, Hc.
        rewrite (Hl1 x1 Hx1). specialize (Hc x2 (Hin2 x2 Hx2)). lia.
      * induction Hl1 as [|l l1 -> Hl1 IH1]; constructor; [done|].
        eapply Forall_impl; [exact Hl1|]. intros ? ->. simpl. lia.
    + apply Forall_app. split.
      * eapply Forall_impl; [done|]. intros ? ->. left.
      * eapply Forall_impl; [done|]. intros ??. by right.
Qed.

Lemma labels_count (y : list Z) (idx : list nat) (labels : list Z) (c : Z) :
  Forall2 (λ i l, y !! i = Some l) idx labels →
  count_of c labels = length (emitted_for y idx c).
Proof.
  unfold count_of, emitted_for.
  induction 1 as [|i l idx labels Hi _ IH]; [done|].
  destruct (decide (l = c)) as [->|Hl].
  - rewrite !filter_cons_True by done. simpl. by rewrite IH.
  - rewrite !filter_cons_False by congruence. done.
Qed.

(** X3.  When [_fit_resample] returns, the labels [y_res] it returns are
    in ascending order, each a label of [y]: the result is grouped by
    class, smallest label first. *)
Theorem resampled_labels_sorted (self : CondensedNearestNeighbour)
    (X : list Row) (y : list Z) (sample_weight : option (list Weight))
    (σ σ' : store) (out : resampled (Weight:=Weight)) :
  _fit_resample self X y sample_weight σ = (Ok out, σ') →
  StronglySorted Z.le (resampled_y out) ∧
  ∀ l, l ∈ resampled_y out → l ∈ y.
Proof.
  intros Hrun%fit_resample_Ok.
  destruct Hrun as [σ0 r m segs r' σ1 out' Hval Hrs Hmin Hrun Hout].
  pose proof (class_run_segments _ _ _ _ _ _ _ _ _ _ _ Hrun) as Hsegs.
  destruct (segment_labels_sorted y (np.unique Z.le y) segs (resampled_y out'))
    as [Hsorted Hin].
  - apply unique_labels_sorted.
  - eapply Forall2_impl; [done|]. by intros ?? [? _].
  - by eapply resampled_y_gathered.
  - split; [done|]. intros l Hl. rewrite Forall_forall in Hin.
    by apply (unique_elem_of Z.le), Hin.
Qed.

(** X4.  When [_fit_resample] returns, every label of [y] that is not
    targeted occurs in [y_res] as often as in [y], and every targeted
    label [c] of [y] occurs in [y_res] at least [n_seeds_S] times and at
    most [n_seeds_S] times more than in [y]. *)
Theorem resampled_class_counts (self : CondensedNearestNeighbour)
    (X : list Row) (y : list Z) (sample_weight : option (list Weight))
    (σ σ' : store) (out : resampled (Weight:=Weight)) :
  _fit_resample self X y sample_weight σ = (Ok out, σ') →
  ∀ c, c ∈ y →
    if bool_decide (c ∈ dom (sampling_strategy_ self)) then
      n_seeds_S self ≤ count_of c (resampled_y out)
        ≤ n_seeds_S self + count_of c y
    else count_of c (resampled_y out) = count_of c y.
Proof.
  intros Hrun c Hc.
  pose proof Hrun as Hrun'%fit_resample_Ok.
  destruct Hrun' as [σ0 r m segs r' σ1 out' Hval Hrs Hmin Hrun' Hout].
  rewrite (labels_count y (concat segs)) by by eapply resampled_y_gathered.
  case_bool_decide as Htarget.
  - destruct (targeted_segment_shape _ _ _ _ _ _ _ _ c Hrun eq_refl Hc Htarget)
      as (seeds & added & -> & Hlen & Hsub%sublist_class_indices_length).
    rewrite length_app. lia.
  - pose proof (class_run_segments _ _ _ _ _ _ _ _ _ _ _ Hrun') as Hsegs.
    apply (unique_elem_of Z.le) in Hc as [k Hk]%list_elem_of_lookup.
    destruct (Forall2_lookup_l _ _ _ _ _ Hsegs Hk) as (seg & Hseg & _ & Hfull).
    erewrite emitted_for_segment; [|apply (unique_NoDup Z.le)| |done..].
    2:{ eapply Forall2_impl; [done|]. by intros ?? [? _]. }
    rewrite (Hfull Htarget). unfold np.flatnonzero.
    apply flatnonzero_from_length.
Qed.

(** X5.  [_fit_resample] returns only when [n_neighbors] is [None], an
    integer or a classifier instance, [y] is not empty and [X] has a row
    for every label of [y]: with a shorter [X], or with no label at all,
    every call raises. *)
Theorem returns_only_on_aligned_input (self : CondensedNearestNeighbour)
    (X : list Row) (y : list Z) (sample_weight : option (list Weight))
    (σ σ' : store) (out : resampled (Weight:=Weight)) :
  _fit_resample self X y sample_weight σ = (Ok out, σ') →
  (∀ type_name, n_neighbors self ≠ NOther type_name) ∧
  y ≠ [] ∧ length y ≤ length X.
Proof.
  intros Hrun.
  pose proof Hrun as Hrun'%fit_resample_Ok.
  destruct Hrun' as [σ0 r m segs r' σ1 out' Hval Hrs Hmin Hrun' Hout].
  split_and!.
  - intros ty Hty. unfold _validate_estimator in Hval. by rewrite Hty in Hval.
  - intros ->. done.
  - destruct (decide (length y = 0)) as [|Hlen]; [lia|].
    destruct (lookup_lt_is_Some_2 y (length y - 1)) as [c Hi]; [lia|].
    cut (length y - 1 < length X); [lia|].
    assert (Hc : c ∈ y) by by eapply list_elem_of_lookup_2.
    destruct (resample_run_segment _ _ _ _ _ _ _ c Hrun Hc)
      as (idx & m' & rng1 & σa & rng2 & σb & Hidx & _ & Hstep).
    injection Hidx as <-.
    apply class_step_Ok in Hstep as (seg & Hseg & Hbranch). simpl in Hseg.
    case_bool_decide as Htarget.
    + destruct Hbranch as (su & σc & st & Hsu%class_setup_Ok & _).
      destruct Hsu as [draws rd σd seeds C_x0 C_y0 S_x S_y e0 m0
                         Hdraw Hseeds HCx0 HCy0 HSx HSy He0 Hfit0].
      apply take_in_range in HSx. rewrite Forall_forall in HSx.
      by apply HSx, class_indices_spec.
    + destruct Hbranch as (-> & _).
      assert (Hin : length y - 1 ∈ concat segs).
      { eapply (list_elem_of_filter (λ i, y !! i = Some c)).
        unfold emitted_for in Hseg. rewrite Hseg.
        by apply class_indices_spec. }
      assert (HX : Forall (λ i, i < length X) (concat segs)).
      { destruct Hout; by eapply take_in_range. }
      rewrite Forall_forall in HX. by apply HX.
Qed.

End Labels.

Lemma resampled_labels_sorted_witness :
  StronglySorted Z.le (resampled_y retrain_run.out) ∧
  ∀ l, l ∈ resampled_y retrain_run.out → l ∈ retrain.y.
Proof.
  apply (resampled_labels_sorted (Weight:=Z) retrain.self retrain.X retrain.y
           None demo.store0 retrain_run.run.2 retrain_run.out).
  reflexivity.
Defined.

Lemma resampled_class_counts_witness :
  if bool_decide (0%Z ∈ dom (sampling_strategy_ retrain.self)) then
    n_seeds_S retrain.self ≤ count_of 0%Z (resampled_y retrain_run.out)
      ≤ n_seeds_S retrain.self + count_of 0%Z retrain.y
  else count_of 0%Z (resampled_y retrain_run.out) = count_of 0%Z retrain.y.
Proof.
  apply (resampled_class_counts (Weight:=Z) retrain.self retrain.X retrain.y
           None demo.store0 retrain_run.run.2 retrain_run.out).
  - reflexivity.
  - apply list_elem_of_lookup. by exists 3.
Defined.

Lemma returns_only_on_aligned_input_witness :
  (∀ type_name, n_neighbors retrain.self ≠ NOther type_name) ∧
  retrain.y ≠ [] ∧ length retrain.y ≤ length retrain.X.
Proof.
  apply (returns_only_on_aligned_input (Weight:=Z) retrain.self retrain.X
           retrain.y None demo.store0 retrain_run.run.2 retrain_run.out).
  reflexivity.
Defined.

(** A short [X]: the last label has no row, and the call raises
    [IndexError]. *)
Example short_X_raises :
  (_fit_resample (Weight:=Z) scenario.self [0; 1; 2; 3; 4; 10; 11]%Z
                 scenario.y None demo.store0).1 = Raise IndexError.
Proof. reflexivity. Qed.

(** ** The generators *)

(** The state from which the generator of a call starts: the global
    generator, a new one made from the integer seed, or the instance. *)
Definition initial_generator `{Classifier} `{RandomSource}
    (seed : random_state_t) (σ : store) : RS :=
  match seed with
  | RSNone => np_random σ
  | RSInt z => RandomState z
  | RSInstance => rs_instance σ
  end.

(** The draws of the seeds along the classes, from the generator state
    [s]: for each targeted class, in the order of [classes],
    [n_seeds_S] positions below the number of rows of the class.  Neither
    [X] nor the classifier has a part in them. *)
Fixpoint seed_draws `{Classifier} `{RandomSource}
    (self : CondensedNearestNeighbour) (y : list Z) (s : RS)
    (classes : list Z) : list (Z * list nat) :=
  match classes with
  | [] => []
  | c :: classes' =>
      if bool_decide (c ∈ dom (sampling_strategy_ self)) then
        let '(draws, s') :=
          randint s (length (np.flatnonzero (np.eq_scalar y c)))
                  (n_seeds_S self) in
        (c, draws) :: seed_draws self y s' classes'
      else seed_draws self y s classes'
  end.

Section Generators.
Context `{Classifier} `{RandomSource} {Weight : Type}.

(** On every outcome the store that a computation leaves is related to
    the one it found. *)
Definition keeps {A} (P : relation store) (m : M A) : Prop :=
  ∀ σ, P σ (m σ).2.

(** The generators that the configuration [seed] does not stand for are
    as they were. *)
Definition untouched (seed : random_state_t) (σ σ' : store) : Prop :=
  (seed ≠ RSNone → np_random σ' = np_random σ) ∧
  (seed ≠ RSInstance → rs_instance σ' = rs_instance σ).

Lemma untouched_refl seed σ : untouched seed σ σ.
Proof. by split. Qed.

Lemma untouched_trans seed σ1 σ2 σ3 :
  untouched seed σ1 σ2 → untouched seed σ2 σ3 → untouched seed σ1 σ3.
Proof.
  intros [Hg1 Hi1] [Hg2 Hi2]. split; intros Hseed.
  - by rewrite Hg2, Hg1.
  - by rewrite Hi2, Hi1.
Qed.

Lemma keeps_bind {A B} seed (m : M A) (f : A → M B) :
  keeps (untouched seed) m →
  (∀ a σ σ', m σ = (Ok a, σ') → keeps (untouched seed) (f a)) →
  keeps (untouched seed) (m ≫= f).
Proof.
  intros Hm Hf σ. specialize (Hm σ). unfold mbind, M_bind.
  destruct (m σ) as [[a|e] σ1] eqn:Hmσ; simpl in *; [|done].
  eapply untouched_trans; [done|]. by eapply Hf.
Qed.

Lemma keeps_same {A} seed (m : M A) :
  (∀ σ, (m σ).2 = σ) → keeps (untouched seed) m.
Proof. intros Hm σ. rewrite Hm. apply untouched_refl. Qed.

Lemma keeps_foldM {A B} seed (P : B → Prop) (f : B → A → M B)
    (l : list A) (b : B) :
  (∀ b a, P b → keeps (untouched seed) (f b a)) →
  (∀ b a σ b' σ', P b → f b a σ = (Ok b', σ') → P b') →
  P b → keeps (untouched seed) (foldM f b l).
Proof.
  intros Hf HP. revert b. induction l as [|a l IH]; intros b Hb; simpl.
  - by apply keeps_same.
  - apply keeps_bind; [by apply Hf|]. intros b' σ σ' Hb'.
    apply IH. by eapply HP.
Qed.

Lemma keeps_estimator_fit seed C_x C_y :
  keeps (untouched seed) (estimator_fit C_x C_y).
Proof.
  intros σ. unfold estimator_fit.
  destruct (estimator_ σ) as [e|]; [|apply untouched_refl].
  destruct (fit (est_params e) C_x C_y); by split.
Qed.

Lemma keeps_estimator_predict seed rows :
  keeps (untouched seed) (estimator_predict rows).
Proof.
  apply keeps_same. intros σ. unfold estimator_predict.
  destruct (estimator_ σ) as [e|]; [|done]. by destruct (est_model e).
Qed.

Lemma keeps_randint_at seed rng high size :
  ref_for seed rng → keeps (untouched seed) (randint_at rng high size).
Proof.
  intros Href σ. unfold randint_at. case_bool_decide; [apply untouched_refl|].
  destruct seed, rng; try done; simpl;
    destruct (randint _ high size); by split.
Qed.

Lemma keeps_loop_body seed X y idx_maj S_x S_y st cand :
  keeps (untouched seed) (loop_body X y idx_maj S_x S_y st cand).
Proof.
  unfold loop_body. destruct cand as [idx_sam [x_sam y_sam]].
  destruct (skip_test idx_sam st); [by apply keeps_same|].
  apply keeps_bind; [apply keeps_estimator_predict|]. intros pred_y _ _ _.
  apply keeps_bind; [by apply keeps_same|].
  intros [] _ _ _; [|by apply keeps_same].
  apply keeps_bind; [by apply keeps_same|]. intros g _ _ _.
  apply keeps_bind; [by apply keeps_same|]. intros C_x _ _ _.
  apply keeps_bind; [by apply keeps_same|]. intros C_y _ _ _.
  apply keeps_bind; [apply keeps_estimator_fit|]. intros [] _ _ _.
  apply keeps_bind; [apply keeps_estimator_predict|]. intros pred_S_y _ _ _.
  by apply keeps_same.
Qed.

Lemma keeps_class_step seed self X y target_stats class_minority idx rng c :
  ref_for seed rng →
  keeps (untouched seed)
        (class_step self X y target_stats class_minority (idx, rng) c).
Proof.
  intros Href. unfold class_step. case_bool_decide; [|by apply keeps_same].
  apply keeps_bind.
  { unfold class_setup.
    apply keeps_bind; [by apply keeps_randint_at|]. intros [draws r'] _ _ _.
    apply keeps_bind; [by apply keeps_same|]. intros seeds _ _ _.
    apply keeps_bind; [by apply keeps_same|]. intros C_x _ _ _.
    apply keeps_bind; [by apply keeps_same|]. intros C_y _ _ _.
    apply keeps_bind; [by apply keeps_same|]. intros S_x _ _ _.
    apply keeps_bind; [by apply keeps_same|]. intros S_y _ _ _.
    apply keeps_bind; [apply keeps_estimator_fit|]. intros [] _ _ _.
    by apply keeps_same. }
  intros su _ _ _.
  apply keeps_bind; [|intros; by apply keeps_same].
  unfold class_loop. apply (keeps_foldM _ (λ _, True)); [|done..].
  intros. apply keeps_loop_body.
Qed.

Lemma check_random_state_same seed σ : (check_random_state seed σ).2 = σ.
Proof.
  unfold check_random_state. destruct seed; [done| |done].
  by case_bool_decide.
Qed.

(** X6.  Whatever [_fit_resample] does, return or raise, it leaves
    numpy's global generator in the state it found unless [random_state]
    is [None], and the generator instance of the caller in the state it
    found unless [random_state] is that instance: a call with an integer
    seed advances neither. *)
Theorem other_generators_untouched (self : CondensedNearestNeighbour)
    (X : list Row) (y : list Z) (sample_weight : option (list Weight))
    (σ : store) :
  (random_state self ≠ RSNone →
   np_random (_fit_resample self X y sample_weight σ).2 = np_random σ) ∧
  (random_state self ≠ RSInstance →
   rs_instance (_fit_resample self X y sample_weight σ).2 = rs_instance σ).
Proof.
  set (seed := random_state self).
  cut (keeps (untouched seed) (_fit_resample self X y sample_weight)).
  { intros Hkeeps. apply Hkeeps. }
  unfold _fit_resample.
  apply keeps_bind.
  { intros σ1. unfold _validate_estimator.
    destruct (n_neighbors self); by split. }
  intros [] _ _ _.
  apply keeps_bind.
  { apply keeps_same. apply check_random_state_same. }
  intros rng σ1 σ2 Hrng%check_random_state_ref_for.
  apply keeps_bind; [by apply keeps_same|]. intros class_minority _ _ _.
  apply keeps_bind.
  { apply (keeps_foldM _ (λ acc, ref_for seed acc.2)); [| |done].
    - intros [idx r] c Hr. by apply keeps_class_step.
    - intros [idx r] c σa [idx' r'] σb Hr Hstep.
      by eapply class_step_ref_for. }
  intros [idx_under rng'] _ _ _.
  apply keeps_bind; [by intros σa; split|]. intros [] _ _ _.
  destruct sample_weight as [w|].
  - apply keeps_bind; [by apply keeps_same|]. intros sw_res _ _ _.
    apply keeps_bind; [by apply keeps_same|]. intros X_res _ _ _.
    apply keeps_bind; [by apply keeps_same|]. intros y_res _ _ _.
    by apply keeps_same.
  - apply keeps_bind; [by apply keeps_same|]. intros X_res _ _ _.
    apply keeps_bind; [by apply keeps_same|]. intros y_res _ _ _.
    by apply keeps_same.
Qed.

Lemma class_loop_generator X y su st cands σ st' σ' rng :
  class_loop X y su st cands σ = (Ok st', σ') →
  rng_state rng σ' = rng_state rng σ.
Proof.
  intros Hloop. unfold class_loop in Hloop.
  eapply (foldM_invariant (λ _ σ', rng_state rng σ' = rng_state rng σ));
    [done|done|].
  intros st1 [idx_sam [x_sam y_sam]] σ1 st2 σ2 _ Hσ1 Hturn%loop_body_turn.
  destruct Hturn; [done..|]. by destruct rng.
Qed.

(** The seeds of a class inside a run are the rows at the draws that
    [seed_draws] computes from the state of the generator at the start
    of the run. *)
Lemma class_run_draws self X y class_minority rng σ classes segs rng' σ' k c
    seg :
  class_run self X y (Counter y) class_minority rng σ classes segs rng' σ' →
  classes !! k = Some c → segs !! k = Some seg →
  c ∈ dom (sampling_strategy_ self) →
  ∃ draws seeds added,
    (c, draws) ∈ seed_draws self y (rng_state rng σ) classes ∧
    np.take (np.flatnonzero (np.eq_scalar y c)) draws = Ok seeds ∧
    seg = seeds ++ added.
Proof.
  intros Hrun. revert k.
  induction Hrun as [|ra σa c' classes seg' segs ra1 σa1 ra2 σa2 Hstep _ IH];
    intros k Hk Hseg Htarget; [done|].
  apply class_step_Ok in Hstep as (seg0 & Hseg0 & Hbranch).
  simpl in Hseg0. subst seg0. simpl.
  case_bool_decide as Htarget'.
  - destruct Hbranch as (su & σb & st & Hsu & Hloop & -> & ->).
    destruct (class_loop_invariant _ _ _ _ _ _ _ _ _ _ _ _ _ Hsu Hloop)
      as (_ & _ & added & Hadd & _).
    pose proof (class_loop_generator _ _ _ _ _ _ _ _ (setup_random_state su)
                  Hloop) as Hgen.
    apply class_setup_Ok in Hsu.
    destruct Hsu as [draws r' σ0 seeds C_x0 C_y0 S_x S_y e0 m0
                       Hdraw Hseeds HCx0 HCy0 HSx HSy He0 Hfit0].
    simpl in *. rewrite class_count in Hdraw.
    apply randint_at_Ok in Hdraw as (_ & -> & Hnext & _).
    assert (Hstate : rng_state r' σa1
                     = (randint (rng_state ra σa)
                          (length (np.flatnonzero (np.eq_scalar y c')))
                          (n_seeds_S self)).2).
    { rewrite Hgen, <-Hnext. by destruct r'. }
    destruct (randint (rng_state ra σa) _ (n_seeds_S self)) as [d s'] eqn:Hd.
    simpl in *.
    destruct k as [|k]; simpl in *.
    + injection Hk as ->. injection Hseg as <-.
      exists d, seeds, added. split_and!; [left|done|done].
    + destruct (IH k Hk Hseg Htarget) as (d' & seeds' & added' & Hin & ? & ?).
      exists d', seeds', added'. split_and!; [|done..].
      right. by rewrite <-Hstate.
  - destruct Hbranch as (-> & -> & ->).
    destruct k as [|k]; simpl in *; [congruence|].
    by apply (IH k).
Qed.

(** X7.  When [_fit_resample] returns, the seeds of every targeted class
    [c] of [y] are the rows of [c] at the positions that [seed_draws]
    lists for [c]: one [randint] call for each targeted class, in
    ascending order of the labels, from the generator that
    [random_state] stands for.  The seeds depend on [y], the targeted
    labels, [n_seeds_S] and the generator only, not on [X] nor on what
    the classifier answers. *)
Theorem seeds_from_labels_only (self : CondensedNearestNeighbour)
    (X : list Row) (y : list Z) (sample_weight : option (list Weight))
    (σ σ' : store) (out : resampled (Weight:=Weight)) :
  _fit_resample self X y sample_weight σ = (Ok out, σ') →
  ∃ idx_under : list nat,
    sample_indices_ σ' = Some idx_under ∧
    ∀ c, c ∈ y → c ∈ dom (sampling_strategy_ self) →
      ∃ draws seeds added,
        (c, draws) ∈
          seed_draws self y (initial_generator (random_state self) σ)
                     (np.unique Z.le y) ∧
        Forall2 (λ d s, np.flatnonzero (np.eq_scalar y c) !! d = Some s)
                draws seeds ∧
        emitted_for y idx_under c = seeds ++ added.
Proof.
  intros Hrun%fit_resample_Ok.
  destruct Hrun as [σ0 r m segs r' σ1 out' Hval Hrs Hmin Hrun Hout].
  exists (concat segs). split; [done|]. intros c Hc Htarget.
  pose proof (class_run_segments _ _ _ _ _ _ _ _ _ _ _ Hrun) as Hsegs.
  apply (unique_elem_of Z.le) in Hc as [k Hk]%list_elem_of_lookup.
  destruct (Forall2_lookup_l _ _ _ _ _ Hsegs Hk) as (seg & Hseg & _).
  assert (Hemit : emitted_for y (concat segs) c = seg).
  { eapply emitted_for_segment; [apply (unique_NoDup Z.le)| |done..].
    eapply Forall2_impl; [done|]. by intros ?? [? _]. }
  destruct (class_run_draws _ _ _ _ _ _ _ _ _ _ _ _ _ Hrun Hk Hseg Htarget)
    as (d & seeds & added & Hin & Hseeds%take_spec & ->).
  exists d, seeds, added. split_and!; [|done..].
  replace (initial_generator (random_state self) σ) with (rng_state r σ0);
    [done|].
  assert (Hgen : np_random σ0 = np_random σ ∧ rs_instance σ0 = rs_instance σ).
  { unfold _validate_estimator in Hval.
    destruct (n_neighbors self); try done; by injection Hval as <-. }
  destruct Hgen as [Hg Hi].
  unfold check_random_state in Hrs.
  destruct (random_state self) as [|z|]; simpl.
  - by injection Hrs as <-.
  - case_bool_decide; [|done]. by injection Hrs as <-.
  - by injection Hrs as <-.
Qed.

End Generators.

Lemma seeds_from_labels_only_witness :
  ∃ idx_under : list nat,
    sample_indices_ retrain_run.run.2 = Some idx_under ∧
    ∀ c, c ∈ retrain.y → c ∈ dom (sampling_strategy_ retrain.self) →
      ∃ draws seeds added,
        (c, draws) ∈
          seed_draws retrain.self retrain.y
            (initial_generator (random_state retrain.self) demo.store0)
            (np.unique Z.le retrain.y) ∧
        Forall2 (λ d s,
                   np.flatnonzero (np.eq_scalar retrain.y c) !! d = Some s)
                draws seeds ∧
        emitted_for retrain.y idx_under c = seeds ++ added.
Proof.
  apply (seeds_from_labels_only (Weight:=Z) retrain.self retrain.X retrain.y
           None demo.store0 retrain_run.run.2 retrain_run.out).
  reflexivity.
Defined.

(** The draws of the run [retrain]: one draw for the label 0, the
    position 0. *)
Example retrain_seed_draws :
  seed_draws retrain.self retrain.y
    (initial_generator (random_state retrain.self) demo.store0)
    (np.unique Z.le retrain.y) = [(0%Z, [0])].
Proof. reflexivity. Qed.

(** ** A call that targets no class *)

(** The rows [X_res] of a result. *)
Definition resampled_X `{Classifier} {Weight : Type}
    (out : resampled (Weight:=Weight)) : list Row :=
  match out with
  | Resampled2 X_res _ | Resampled3 X_res _ _ => X_res
  end.

Section Untargeted.
Context `{Classifier} `{RandomSource} {Weight : Type}.

Lemma class_run_untargeted self X y target_stats class_minority rng σ classes
    segs rng' σ' :
  class_run self X y target_stats class_minority rng σ classes segs rng' σ' →
  (∀ c, c ∈ classes → c ∉ dom (sampling_strategy_ self)) →
  segs = (λ c, np.flatnonzero (np.eq_scalar y c)) <$> classes ∧
  rng' = rng ∧ σ' = σ.
Proof.
  induction 1 as [|ra σa c classes seg segs ra1 σa1 ra2 σa2 Hstep _ IH];
    intros Hkeep; [done|].
  apply class_step_Ok in Hstep as (seg0 & Hseg0 & Hbranch).
  rewrite bool_decide_eq_false_2 in Hbranch by (apply Hkeep; left).
  destruct Hbranch as (-> & -> & ->). simpl in Hseg0. subst seg.
  destruct IH as (-> & -> & ->); [|done].
  intros c' Hc'. apply Hkeep. by right.
Qed.

Lemma elem_of_class_concat (y : list Z) (classes : list Z) (i : nat) :
  i ∈ concat ((λ c, np.flatnonzero (np.eq_scalar y c)) <$> classes) ↔
  ∃ c, c ∈ classes ∧ y !! i = Some c.
Proof.
  induction classes as [|c classes IH]; csimpl.
  - rewrite elem_of_nil. split; [done|]. by intros (c & ?%elem_of_nil & _).
  - rewrite elem_of_app, IH, class_indices_spec. split.
    + intros [Hi|(c' & Hc' & Hi)]; [exists c|exists c'];
        (split; [|done]); [left|by right].
    + intros (c' & [->|Hc']%elem_of_cons & Hi); [by left|right].
      by exists c'.
Qed.

Lemma sorted_lt_NoDup (l : list nat) : StronglySorted lt l → NoDup l.
Proof.
  induction 1 as [|i l _ IH Hi]; constructor; [|done].
  intros Hin. rewrite Forall_forall in Hi. specialize (Hi i Hin). lia.
Qed.

Lemma class_concat_NoDup (y : list Z) (classes : list Z) :
  NoDup classes →
  NoDup (concat ((λ c, np.flatnonzero (np.eq_scalar y c)) <$> classes)).
Proof.
  induction 1 as [|c classes Hc _ IH]; csimpl; [constructor|].
  apply NoDup_app. split_and!; [|  |done].
  - apply sorted_lt_NoDup, flatnonzero_sorted.
  - intros i Hi%class_indices_spec (c' & Hc' & Hi')%elem_of_class_concat.
    congruence.
Qed.

(** The index sets of the labels of [y], one after the other, hold every
    position of [y] once. *)
Lemma class_concat_Permutation (y : list Z) :
  concat ((λ c, np.flatnonzero (np.eq_scalar y c)) <$> np.unique Z.le y)
  ≡ₚ seq 0 (length y).
Proof.
  apply NoDup_Permutation.
  - apply class_concat_NoDup, (unique_NoDup Z.le).
  - apply NoDup_seq.
  - intros i. rewrite elem_of_class_concat, elem_of_seq. split.
    + intros (c & _ & Hi%lookup_lt_Some). lia.
    + intros [_ Hi]. destruct (lookup_lt_is_Some_2 y i) as [c Hc]; [lia|].
      exists c. split; [|done].
      apply (unique_elem_of Z.le). by eapply list_elem_of_lookup_2.
Qed.

Lemma Forall2_Permutation_l {A B} (P : A → B → Prop) (l1 l2 : list A)
    (k1 : list B) :
  l1 ≡ₚ l2 → Forall2 P l1 k1 → ∃ k2, k1 ≡ₚ k2 ∧ Forall2 P l2 k2.
Proof.
  intros Hperm. revert k1.
  induction Hperm as [|x l1 l2 _ IH|x1 x2 l|l1 l2 l3 _ IH1 _ IH2]; intros k1.
  - intros ->%Forall2_nil_inv_l. by exists [].
  - intros (b & k1' & Hb & Hk1' & ->)%Forall2_cons_inv_l.
    destruct (IH k1' Hk1') as (k2 & Hperm & Hk2).
    exists (b :: k2). split; [by constructor|by constructor].
  - intros (b1 & k1' & Hb1 & (b2 & k1'' & Hb2 & Hk & ->)%Forall2_cons_inv_l
             & ->)%Forall2_cons_inv_l.
    exists (b2 :: b1 :: k1''). split; [apply perm_swap|].
    by repeat constructor.
  - intros Hk1. destruct (IH1 k1 Hk1) as (k2 & Hp12 & Hk2).
    destruct (IH2 k2 Hk2) as (k3 & Hp23 & Hk3).
    exists k3. split; [by etrans|done].
Qed.

Lemma gather_seq {A} (arr : list A) (j n : nat) (k : list A) :
  Forall2 (λ i a, arr !! i = Some a) (seq j n) k → k = take n (drop j arr).
Proof.
  revert j k. induction n as [|n IH]; intros j k; simpl.
  - by intros ->%Forall2_nil_inv_l.
  - intros (a & k' & Ha & Hk' & ->)%Forall2_cons_inv_l.
    rewrite (drop_S _ _ _ Ha). simpl. f_equal. by apply IH.
Qed.

(** When the arrays are gathered at a rearrangement of all positions of
    [y], what comes back is a rearrangement of the first [length y]
    entries. *)
Lemma gather_Permutation {A} (arr : list A) (y : list Z) (idx : list nat)
    (r : list A) :
  idx ≡ₚ seq 0 (length y) →
  Forall2 (λ i a, arr !! i = Some a) idx r →
  r ≡ₚ take (length y) arr.
Proof.
  intros Hperm Hr.
  destruct (Forall2_Permutation_l _ _ _ _ Hperm Hr) as (k & Hrk & Hk).
  apply gather_seq in Hk. by rewrite Hrk, Hk, drop_0.
Qed.

(** X8.  When no label of [y] is targeted and [_fit_resample] returns,
    it has selected every row once: [sample_indices_] is a rearrangement
    of all positions of [y], [y_res] a rearrangement of [y] and [X_res]
    one of the first [length y] rows of [X].  No number was drawn (both
    generators are as they were found) and nothing was fitted
    ([estimator_] holds an estimator without a model). *)
Theorem untargeted_run_rearranges (self : CondensedNearestNeighbour)
    (X : list Row) (y : list Z) (sample_weight : option (list Weight))
    (σ σ' : store) (out : resampled (Weight:=Weight)) :
  (∀ c, c ∈ y → c ∉ dom (sampling_strategy_ self)) →
  _fit_resample self X y sample_weight σ = (Ok out, σ') →
  ∃ idx_under : list nat,
    sample_indices_ σ' = Some idx_under ∧
    idx_under ≡ₚ seq 0 (length y) ∧
    resampled_y out ≡ₚ y ∧
    resampled_X out ≡ₚ take (length y) X ∧
    np_random σ' = np_random σ ∧ rs_instance σ' = rs_instance σ ∧
    ∃ e, estimator_ σ' = Some e ∧ est_model e = None.
Proof.
  intros Hkeep Hrun%fit_resample_Ok.
  destruct Hrun as [σ0 r m segs r' σ1 out' Hval Hrs Hmin Hrun Hout].
  destruct (class_run_untargeted _ _ _ _ _ _ _ _ _ _ _ Hrun)
    as (-> & -> & ->).
  { intros c Hc%unique_elem_of. by apply Hkeep. }
  pose proof (class_concat_Permutation y) as Hperm.
  eexists. split_and!; [done|done| | | | |].
  - trans (take (length y) y); [|by rewrite take_ge].
    eapply gather_Permutation; [done|]. by eapply resampled_y_gathered.
  - eapply gather_Permutation; [done|].
    destruct Hout; by apply take_spec.
  - unfold _validate_estimator in Hval.
    destruct (n_neighbors self); try done; by injection Hval as <-.
  - unfold _validate_estimator in Hval.
    destruct (n_neighbors self); try done; by injection Hval as <-.
  - unfold _validate_estimator in Hval.
    destruct (n_neighbors self); try done; injection Hval as <-;
      by eexists.
Qed.

Lemma StronglySorted_lookup_lt {A} (R : relation A) (l : list A) i j a b :
  StronglySorted R l → i < j → l !! i = Some a → l !! j = Some b → R a b.
Proof.
  intros Hl. revert i j.
  induction Hl as [|x l _ IH Hx]; intros i j Hij Hi Hj; [done|].
  destruct j as [|j]; [lia|]. simpl in Hj.
  destruct i as [|i]; simpl in Hi.
  - injection Hi as ->. rewrite Forall_forall in Hx.
    by eapply Hx, list_elem_of_lookup_2.
  - eapply (IH i j); [lia|done..].
Qed.

(** After a run the estimator is the one that the last targeted turn
    fitted. *)
Lemma class_run_last_fit self X y target_stats class_minority rng σ classes
    segs rng' σ' k c seg :
  class_run self X y target_stats class_minority rng σ classes segs rng' σ' →
  classes !! k = Some c → segs !! k = Some seg →
  c ∈ dom (sampling_strategy_ self) →
  (∀ j c', k < j → classes !! j = Some c' →
           c' ∉ dom (sampling_strategy_ self)) →
  fitted_on X y (np.flatnonzero (np.eq_scalar y class_minority) ++ seg) σ'.
Proof.
  intros Hrun. revert k.
  induction Hrun as [|ra σa c' classes seg' segs ra1 σa1 ra2 σa2 Hstep Hrun IH];
    intros k Hk Hseg Htarget Hlast; [done|].
  destruct k as [|k]; simpl in Hk, Hseg.
  - injection Hk as ->. injection Hseg as ->.
    destruct (class_run_untargeted _ _ _ _ _ _ _ _ _ _ _ Hrun)
      as (_ & _ & ->).
    { intros c' [j Hj]%list_elem_of_lookup. apply (Hlast (S j)); [lia|done]. }
    apply class_step_Ok in Hstep as (seg0 & Hseg0 & Hbranch).
    simpl in Hseg0. subst seg0.
    rewrite bool_decide_eq_true_2 in Hbranch by done.
    destruct Hbranch as (su & σb & st & Hsu & Hloop & -> & _).
    destruct (class_loop_invariant _ _ _ _ _ _ _ _ _ _ _ _ _ Hsu Hloop)
      as (Hfit & HC & _).
    by rewrite <-HC.
  - apply (IH k); [done..|].
    intros j c'' Hj. apply (Hlast (S j)). lia.
Qed.

(** X9.  When [_fit_resample] returns and [c] is the largest targeted
    label of [y], the estimator left in [estimator_] is the one fitted
    on the rows of the minority class followed by the entries of the
    selection with label [c], in the order of the selection. *)
Theorem estimator_after_run (self : CondensedNearestNeighbour)
    (X : list Row) (y : list Z) (sample_weight : option (list Weight))
    (σ σ' : store) (out : resampled (Weight:=Weight)) :
  _fit_resample self X y sample_weight σ = (Ok out, σ') →
  ∃ class_minority idx_under,
    min_key (Counter y) = Ok class_minority ∧
    sample_indices_ σ' = Some idx_under ∧
    ∀ c, c ∈ y → c ∈ dom (sampling_strategy_ self) →
      (∀ c', c' ∈ y → c' ∈ dom (sampling_strategy_ self) → (c' ≤ c)%Z) →
      fitted_on X y
        (np.flatnonzero (np.eq_scalar y class_minority) ++
         emitted_for y idx_under c) σ'.
Proof.
  intros Hrun%fit_resample_Ok.
  destruct Hrun as [σ0 r m segs r' σ1 out' Hval Hrs Hmin Hrun Hout].
  exists m, (concat segs). split_and!; [done..|]. intros c Hc Htarget Hmax.
  pose proof (class_run_segments _ _ _ _ _ _ _ _ _ _ _ Hrun) as Hsegs.
  apply (unique_elem_of Z.le) in Hc as [k Hk]%list_elem_of_lookup.
  destruct (Forall2_lookup_l _ _ _ _ _ Hsegs Hk) as (seg & Hseg & _).
  assert (Hemit : emitted_for y (concat segs) c = seg).
  { eapply emitted_for_segment; [apply (unique_NoDup Z.le)| |done..].
    eapply Forall2_impl; [done|]. by intros ?? [? _]. }
  rewrite Hemit.
  cut (fitted_on X y (np.flatnonzero (np.eq_scalar y m) ++ seg) σ1).
  { intros (e & C_x & C_y & mo & ?). by exists e, C_x, C_y, mo. }
  eapply class_run_last_fit; [done..|].
  intros j c' Hj Hc' Htarget'.
  pose proof (StronglySorted_lookup_lt _ _ _ _ _ _
                (unique_labels_sorted y) Hj Hk Hc') as Hlt.
  assert (Hin : c' ∈ y).
  { apply (unique_elem_of Z.le). by eapply list_elem_of_lookup_2. }
  specialize (Hmax c' Hin Htarget'). lia.
Qed.

End Untargeted.

(** The scenario with no targeted label. *)
Module untargeted.

Definition out : resampled (Weight:=Z) :=
  Eval vm_compute in
    match (_fit_resample (demo.sampler [] 0 1) scenario.X scenario.y None
                         demo.store0).1 with
    | Ok o => o
    | Raise _ => Resampled2 [] []
    end.

End untargeted.

Lemma untargeted_run_rearranges_witness :
  let self : CondensedNearestNeighbour := demo.sampler [] 0 1 in
  ∃ idx_under : list nat,
    sample_indices_
      (_fit_resample (Weight:=Z) self scenario.X scenario.y None
                     demo.store0).2 = Some idx_under ∧
    idx_under ≡ₚ seq 0 (length scenario.y) ∧
    resampled_y untargeted.out ≡ₚ scenario.y ∧
    resampled_X untargeted.out
      ≡ₚ take (length scenario.y) scenario.X ∧
    np_random (_fit_resample (Weight:=Z) self scenario.X scenario.y None
                             demo.store0).2 = np_random demo.store0 ∧
    rs_instance (_fit_resample (Weight:=Z) self scenario.X scenario.y None
                               demo.store0).2 = rs_instance demo.store0 ∧
    ∃ e, estimator_ (_fit_resample (Weight:=Z) self scenario.X scenario.y
                                   None demo.store0).2 = Some e ∧
         est_model e = None.
Proof.
  intros self.
  apply (untargeted_run_rearranges (Weight:=Z) self scenario.X scenario.y
           None demo.store0 _ untargeted.out).
  - intros c _. unfold self. simpl. rewrite dom_empty_L. apply not_elem_of_empty.
  - reflexivity.
Defined.

Lemma estimator_after_run_witness :
  ∃ class_minority idx_under,
    min_key (Counter retrain.y) = Ok class_minority ∧
    sample_indices_ retrain_run.run.2 = Some idx_under ∧
    ∀ c, c ∈ retrain.y → c ∈ dom (sampling_strategy_ retrain.self) →
      (∀ c', c' ∈ retrain.y → c' ∈ dom (sampling_strategy_ retrain.self) →
             (c' ≤ c)%Z) →
      fitted_on retrain.X retrain.y
        (np.flatnonzero (np.eq_scalar retrain.y class_minority) ++
         emitted_for retrain.y idx_under c) retrain_run.run.2.
Proof.
  apply (estimator_after_run (Weight:=Z) retrain.self retrain.X retrain.y
           None demo.store0 retrain_run.run.2 retrain_run.out).
  reflexivity.
Defined.

(** ** A targeted minority class *)

(** The classifier answers only labels it was fitted on, as a vote among
    neighbours does. *)
Definition answers_known_labels `{Classifier} : Prop :=
  ∀ p C_x C_y m rows labels,
    fit p C_x C_y = Ok m → predict m rows = Ok labels →
    Forall (λ l, l ∈ C_y) labels.

Section TargetedMinority.
Context `{Classifier} `{RandomSource} {Weight : Type}.

Lemma gather_class_labels (y : list Z) (c : Z) (idx : list nat)
    (labels : list Z) :
  Forall (λ i, y !! i = Some c) idx → _safe_indexing y idx = Ok labels →
  Forall (λ l, l = c) labels.
Proof.
  intros Hidx Hlabels%take_spec.
  induction Hlabels as [|i l idx labels Hi _ IH]; [done|].
  apply Forall_cons in Hidx as [Hic Hidx].
  constructor; [congruence|by apply IH].
Qed.

(** The turn for the minority class: C holds rows of that class only, so
    every candidate gets its own label and none is added. *)
Lemma minority_turn_no_growth self X y target_stats class_minority rng σ su
    σ1 st σ2 :
  answers_known_labels →
  class_setup self X y target_stats class_minority rng class_minority σ
  = (Ok su, σ1) →
  class_loop X y su (setup_locals su)
             (enumerate (zip (setup_S_x su) (setup_S_y su))) σ1
  = (Ok st, σ2) →
  st = setup_locals su.
Proof.
  intros Hknown Hsu%class_setup_Ok Hloop.
  destruct Hsu as [draws r' σ0 seeds C_x C_y S_x S_y e m
                     Hdraw Hseeds HCx HCy HSx HSy He Hfit].
  simpl in *.
  set (minority := np.flatnonzero (np.eq_scalar y class_minority)) in *.
  assert (Hminority : Forall (λ i, y !! i = Some class_minority) minority).
  { apply Forall_forall. intros i Hi. by apply class_indices_spec. }
  assert (HSy' : Forall (λ l, l = class_minority) S_y)
    by by eapply gather_class_labels.
  assert (HCy' : Forall (λ l, l = class_minority) C_y).
  { eapply gather_class_labels; [|done]. apply Forall_app. split; [done|].
    apply Forall_forall. intros i Hi. rewrite Forall_forall in Hminority.
    apply Hminority. by eapply take_elem_of. }
  unfold class_loop in Hloop. simpl in Hloop.
  cut (st = {| idx_maj_sample := seeds; C_indices := minority ++ seeds;
              good_classif_label := seeds |} ∧ σ2 = fitted σ0 e m).
  { by intros [-> _]. }
  eapply (foldM_invariant (λ st' σ', st' = _ ∧ σ' = _)); [done|done|].
  intros st1 [idx_sam [x_sam y_sam]] σa st2 σb Hcand%enumerate_elem_of
    [-> ->] Hturn%loop_body_turn.
  destruct Hturn as [| |p g C_x' C_y' e' m' pred_S_y Hskip Hpred Hp];
    [done..|].
  exfalso. apply Hp.
  apply lookup_zip_with_Some in Hcand as (x & l & [= <- <-] & _ & Hl).
  rewrite Forall_forall in HSy'.
  rewrite (HSy' y_sam) by by eapply list_elem_of_lookup_2.
  apply estimator_predict_Ok in Hpred as (_ & e1 & m1 & [= <-] & [= <-] & Hpr).
  simpl in Hfit.
  pose proof (Hknown _ _ _ _ _ _ Hfit Hpr) as Hin.
  apply Forall_cons in Hin as [Hin _]. rewrite Forall_forall in HCy'.
  by apply HCy'.
Qed.

(** X11.  With a classifier that answers only labels it was fitted on:
    when the minority class is itself targeted and [_fit_resample]
    returns, that class keeps its [n_seeds_S] seeds and nothing else, so
    its label occurs exactly [n_seeds_S] times in [y_res]. *)
Theorem targeted_minority_keeps_seeds (self : CondensedNearestNeighbour)
    (X : list Row) (y : list Z) (sample_weight : option (list Weight))
    (σ σ' : store) (out : resampled (Weight:=Weight)) :
  answers_known_labels →
  _fit_resample self X y sample_weight σ = (Ok out, σ') →
  ∃ class_minority idx_under,
    min_key (Counter y) = Ok class_minority ∧
    sample_indices_ σ' = Some idx_under ∧
    (class_minority ∈ dom (sampling_strategy_ self) →
     length (emitted_for y idx_under class_minority) = n_seeds_S self ∧
     count_of class_minority (resampled_y out) = n_seeds_S self).
Proof.
  intros Hknown Hrun.
  pose proof Hrun as Hrun'%fit_resample_Ok.
  destruct Hrun' as [σ0 r m segs r' σ1 out' Hval Hrs Hmin Hrun' Hout].
  exists m, (concat segs). split_and!; [done..|]. intros Htarget.
  rewrite (labels_count y (concat segs)) by by eapply resampled_y_gathered.
  cut (length (emitted_for y (concat segs) m) = n_seeds_S self); [done|].
  destruct (min_key_Counter_spec y m Hmin) as [Hm _].
  destruct (resample_run_segment _ _ _ _ _ _ _ m Hrun Hm)
    as (idx & m' & rng1 & σa & rng2 & σb & Hidx & Hmin' & Hstep).
  injection Hidx as <-. rewrite Hmin in Hmin'. injection Hmin' as <-.
  apply class_step_Ok in Hstep as (seg & Hseg & Hbranch). simpl in Hseg.
  rewrite bool_decide_eq_true_2 in Hbranch by done.
  destruct Hbranch as (su & σc & st & Hsu & Hloop & -> & _).
  rewrite Hseg.
  rewrite (minority_turn_no_growth _ _ _ _ _ _ _ _ _ _ _ Hknown Hsu Hloop).
  apply class_setup_Ok in Hsu.
  destruct Hsu as [draws rd σd seeds C_x0 C_y0 S_x S_y e0 m0
                     Hdraw Hseeds HCx0 HCy0 HSx HSy He0 Hfit0].
  simpl. apply take_length in Hseeds. rewrite Hseeds.
  apply randint_at_Ok in Hdraw as (_ & -> & _). apply randint_length.
Qed.

End TargetedMinority.

Lemma nearest_elem_of (x : Z) (best : Z * Z) (train : list (Z * Z)) :
  nearest x best train ∈ best :: train.
Proof.
  unfold nearest. induction train as [|t train IH] using rev_ind; [left|].
  rewrite foldl_snoc. case_bool_decide.
  - rewrite app_comm_cons. apply elem_of_app. right. left.
  - rewrite app_comm_cons. apply elem_of_app. by left.
Qed.

Lemma nn1_answers_known_labels : answers_known_labels.
Proof.
  intros p C_x C_y m rows labels Hfit Hpred. simpl in *. unfold train in Hfit.
  case_bool_decide; [|done]. destruct C_x as [|x C_x]; [done|].
  injection Hfit as <-. unfold classify in Hpred.
  destruct C_y as [|l0 C_y]; simpl in Hpred; [done|].
  injection Hpred as <-. apply Forall_fmap, Forall_forall. intros x' _.
  simpl. pose proof (nearest_elem_of x' (x, l0) (zip C_x C_y)) as Hin.
  change ((x, l0) :: zip C_x C_y) with (zip (x :: C_x) (l0 :: C_y)) in Hin.
  apply list_elem_of_lookup in Hin as [i Hi].
  apply lookup_zip_with_Some in Hi as (a & l & -> & _ & Hl).
  by eapply list_elem_of_lookup_2.
Qed.

(** The scenario with both labels targeted: the minority label 1 keeps
    its one seed. *)
Module both_targeted.

Definition self : CondensedNearestNeighbour := demo.sampler [0; 1]%Z 0 1.

Definition run : result (resampled (Weight:=Z)) * store :=
  Eval vm_compute in
    _fit_resample self scenario.X scenario.y None demo.store0.

Definition out : resampled (Weight:=Z) :=
  Eval vm_compute in
    match run.1 with Ok o => o | Raise _ => Resampled2 [] [] end.

End both_targeted.

Lemma targeted_minority_keeps_seeds_witness :
  ∃ class_minority idx_under,
    min_key (Counter scenario.y) = Ok class_minority ∧
    sample_indices_ both_targeted.run.2 = Some idx_under ∧
    (class_minority ∈ dom (sampling_strategy_ both_targeted.self) →
     length (emitted_for scenario.y idx_under class_minority)
     = n_seeds_S both_targeted.self ∧
     count_of class_minority (resampled_y both_targeted.out)
     = n_seeds_S both_targeted.self).
Proof.
  apply (targeted_minority_keeps_seeds (Weight:=Z) both_targeted.self
           scenario.X scenario.y None demo.store0 both_targeted.run.2
           both_targeted.out).
  - apply nn1_answers_known_labels.
  - reflexivity.
Defined.

(** The selection of that run: one row of each label. *)
Example both_targeted_selection :
  sample_indices_ both_targeted.run.2 = Some [0; 6].
Proof. reflexivity. Qed.
